(** * R-Squared-js: the envelope codec and the content cipher

    A shallow embedding of the module that exports [encrypt_object],
    [decrypt_object], [encrypt_buffer], [decrypt_buffer] and the content
    cipher helpers ([make_content_key], [make_content_cipher_stream],
    [crypto_content_transform], [encrypt_content], ...).

    JavaScript values are modelled as follows.
    - A [Buffer] is a [list byte].
    - A string is a [string]; the strings that matter here (base64, hex,
      algorithm names, the ':' separator) are ASCII.
    - [null] / [undefined] are [None].
    - A call that may throw returns a [result]: [Ok v] or [Throw e].
    - Objects that are mutated by method calls (cipher objects) are threaded
      explicitly: a method returns its output and the new object state.
    - Randomness is an explicit generator state. *)

From Stdlib Require Import List String Ascii Bool Arith PeanoNat Lia.
From Stdlib.Strings Require Import Byte.
Import ListNotations.
Local Open Scope string_scope.
Local Open Scope list_scope.
Local Open Scope nat_scope.


(* ================================================================== *)
(** ** Exceptions and fallible computations *)
(* ================================================================== *)

(** The JavaScript exceptions that can escape the module. *)
Inductive exn : Type :=
| TypeError (msg : string)
| RangeError (msg : string)
| SyntaxError (msg : string)
| Error (msg : string).

(** The class of an exception (its [name]). *)
Definition error_class (e : exn) : string :=
  match e with
  | TypeError _ => "TypeError"
  | RangeError _ => "RangeError"
  | SyntaxError _ => "SyntaxError"
  | Error _ => "Error"
  end.


Inductive result (A : Type) : Type :=
| Ok (a : A)
| Throw (e : exn).

Arguments Ok {A} a.
Arguments Throw {A} e.

Definition bind {A B : Type} (m : result A) (k : A -> result B) : result B :=
  match m with
  | Ok a => k a
  | Throw e => Throw e
  end.

Declare Scope js_scope.
Delimit Scope js_scope with js.
Notation "x <- m ;; k" := (bind m (fun x => k))
  (at level 61, m at next level, right associativity) : js_scope.
Notation "' pat <- m ;; k" := (bind m (fun x => match x with pat => k end))
  (at level 61, pat pattern, m at next level, right associativity) : js_scope.
Local Open Scope js_scope.

Definition fails {A : Type} (r : result A) : Prop :=
  exists e, r = Throw e.

(* ================================================================== *)
(** ** Bytes *)
(* ================================================================== *)

Definition Buffer := list byte.

(** [Buffer.from([n])]: an array element is stored modulo 256. *)
Definition u8 (n : nat) : byte :=
  match Byte.of_nat (n mod 256) with
  | Some b => b
  | None => x00
  end.

(** [Buffer.concat(list)]. *)
Definition Buffer_concat (l : list Buffer) : Buffer := List.concat l.

(** JavaScript numbers as they occur in [decrypt_buffer]: a byte read from a
    buffer, or [NaN] when arithmetic meets [undefined]. *)
Inductive jsnum : Type :=
| Num (n : nat)
| NaN.

(** [buf[i]]: the byte at index [i], or [undefined]. *)
Definition Buffer_index (buf : Buffer) (i : nat) : option byte := nth_error buf i.

(** [1 + x] where [x] is a byte value or [undefined]. *)
Definition js_one_plus (x : option byte) : jsnum :=
  match x with
  | Some b => Num (1 + Byte.to_nat b)
  | None => NaN
  end.

(** Coercion of a slice bound to an integer: [NaN] becomes 0. *)
Definition js_to_index (x : jsnum) : nat :=
  match x with
  | Num n => n
  | NaN => 0
  end.

(** [buf.slice(start, end)] for non-negative bounds: both bounds are clamped
    to the buffer's length and an end before the start gives an empty buffer. *)
Definition Buffer_slice (buf : Buffer) (start stop : nat) : Buffer :=
  firstn (stop - start) (skipn start buf).

(** [buf.slice(start)]. *)
Definition Buffer_slice_from (buf : Buffer) (start : nat) : Buffer :=
  skipn start buf.

(* ================================================================== *)
(** ** Hex encoding ([toString('hex')], [Buffer.from(s, 'hex')]) *)
(* ================================================================== *)

Definition hex_digits : string := "0123456789abcdef".

Definition hex_digit (n : nat) : ascii :=
  match String.get n hex_digits with
  | Some c => c
  | None => "0"%char
  end.

(** Value of a hexadecimal digit, either case. *)
Definition hex_value (c : ascii) : option nat :=
  let n := nat_of_ascii c in
  if (48 <=? n) && (n <=? 57) then Some (n - 48)
  else if (97 <=? n) && (n <=? 102) then Some (n - 87)
  else if (65 <=? n) && (n <=? 70) then Some (n - 55)
  else None.

(** [buf.toString('hex')]. *)
Fixpoint Buffer_toString_hex (buf : Buffer) : string :=
  match buf with
  | [] => EmptyString
  | b :: rest =>
      let n := Byte.to_nat b in
      String (hex_digit (n / 16)) (String (hex_digit (n mod 16))
        (Buffer_toString_hex rest))
  end.

(** [Buffer.from(s, 'hex')]: pairs of digits are decoded until the first
    pair that is not hexadecimal; an odd trailing digit is dropped. *)
Fixpoint Buffer_from_hex (s : string) : Buffer :=
  match s with
  | String a (String b rest) =>
      match hex_value a, hex_value b with
      | Some h, Some l => u8 (16 * h + l) :: Buffer_from_hex rest
      | _, _ => []
      end
  | _ => []
  end.

(* ================================================================== *)
(** ** Base64 ([toString('base64')], [Buffer.from(s, 'base64')]) *)
(* ================================================================== *)

Definition b64_alphabet : string :=
  "ABCDEFGHIJKLMNOPQRSTUVWXYZabcdefghijklmnopqrstuvwxyz0123456789+/".

Definition b64_char (n : nat) : ascii :=
  match String.get n b64_alphabet with
  | Some c => c
  | None => "="%char
  end.

(** The decoder's table: the standard alphabet, and the URL-safe characters
    '-' and '_'; every other character is not a base64 digit. *)
Definition unbase64 (c : ascii) : option nat :=
  let n := nat_of_ascii c in
  if (65 <=? n) && (n <=? 90) then Some (n - 65)
  else if (97 <=? n) && (n <=? 122) then Some (n - 71)
  else if (48 <=? n) && (n <=? 57) then Some (n + 4)
  else if (n =? 43) || (n =? 45) then Some 62
  else if (n =? 47) || (n =? 95) then Some 63
  else None.

(** [buf.toString('base64')]: three bytes give four digits; a tail of one or
    two bytes is padded with '='. *)
Fixpoint Buffer_toString_base64 (buf : Buffer) : string :=
  match buf with
  | [] => EmptyString
  | [x] =>
      let a := Byte.to_nat x in
      String (b64_char (a / 4)) (String (b64_char ((a mod 4) * 16)) "==")
  | [x; y] =>
      let a := Byte.to_nat x in
      let b := Byte.to_nat y in
      String (b64_char (a / 4))
        (String (b64_char ((a mod 4) * 16 + b / 16))
           (String (b64_char ((b mod 16) * 4)) "="))
  | x :: y :: z :: rest =>
      let a := Byte.to_nat x in
      let b := Byte.to_nat y in
      let c := Byte.to_nat z in
      String (b64_char (a / 4))
        (String (b64_char ((a mod 4) * 16 + b / 16))
           (String (b64_char ((b mod 16) * 4 + c / 64))
              (String (b64_char (c mod 64))
                 (Buffer_toString_base64 rest))))
  end.

(** The digits the decoder sees: characters outside the table are skipped and
    the first '=' ends the input. *)
Fixpoint b64_digits (s : string) : list nat :=
  match s with
  | EmptyString => []
  | String c rest =>
      if Ascii.eqb c "="%char then []
      else match unbase64 c with
           | Some v => v :: b64_digits rest
           | None => b64_digits rest
           end
  end.

(** Four digits give three bytes; a tail of two or three digits gives one or
    two bytes, a single trailing digit gives none. *)
Fixpoint b64_bytes (l : list nat) : Buffer :=
  match l with
  | a :: b :: c :: d :: rest =>
      u8 (a * 4 + b / 16) :: u8 ((b mod 16) * 16 + c / 4)
        :: u8 ((c mod 4) * 64 + d) :: b64_bytes rest
  | [a; b; c] => [u8 (a * 4 + b / 16); u8 ((b mod 16) * 16 + c / 4)]
  | [a; b] => [u8 (a * 4 + b / 16)]
  | _ => []
  end.

(** [Buffer.from(s, 'base64')]: never throws on a string. *)
Definition Buffer_from_base64 (s : string) : Buffer := b64_bytes (b64_digits s).

(* ================================================================== *)
(** ** Strings *)
(* ================================================================== *)

(** The pieces of [s] between the occurrences of the separator [sep]. *)
Fixpoint split_on (sep : ascii) (s : string) : list string :=
  match s with
  | EmptyString => [EmptyString]
  | String c rest =>
      if Ascii.eqb c sep then EmptyString :: split_on sep rest
      else match split_on sep rest with
           | seg :: segs => String c seg :: segs
           | [] => [String c EmptyString]
           end
  end.

(** [s.split(sep, limit)]: the string is split at every occurrence of the
    separator and the array is then cut to its first [limit] pieces. *)
Definition String_split (sep : ascii) (limit : nat) (s : string) : list string :=
  firstn limit (split_on sep s).

(** Whether the character [c] occurs in [s]. *)
Fixpoint occurs (c : ascii) (s : string) : bool :=
  match s with
  | EmptyString => false
  | String d rest => Ascii.eqb d c || occurs c rest
  end.

(** Truthiness of a string-or-null value: [null] and the empty string are
    falsy. *)
Definition truthy (v : option string) : bool :=
  match v with
  | Some (String _ _) => true
  | _ => false
  end.

(** Splitting on the first ':' only, as the description of the envelope has
    it: everything before the first ':' and the whole remainder after it. *)
Fixpoint split_first (sep : ascii) (s : string) : option (string * string) :=
  match s with
  | EmptyString => None
  | String c rest =>
      if Ascii.eqb c sep then Some (EmptyString, rest)
      else match split_first sep rest with
           | Some (a, b) => Some (String c a, b)
           | None => None
           end
  end.

(** The piece of [s] before its first [sep], or all of [s]. *)
Fixpoint before_sep (sep : ascii) (s : string) : string :=
  match s with
  | EmptyString => EmptyString
  | String c rest =>
      if Ascii.eqb c sep then EmptyString else String c (before_sep sep rest)
  end.

(** A base64 text in canonical form: the encoding of some buffer, which is
    then the buffer it decodes to. *)
Definition well_formed_base64 (s : string) : bool :=
  String.eqb (Buffer_toString_base64 (Buffer_from_base64 s)) s.

(** A text envelope in the documented form [base64 ":" base64]. *)
Definition text_envelope_parses (str : string) : bool :=
  match split_first ":" str with
  | Some (nonce, ciphertext) =>
      well_formed_base64 nonce && well_formed_base64 ciphertext
  | None => false
  end.

(** A binary envelope in the documented form: a length byte [N] followed by
    at least [N] bytes. *)
Definition binary_envelope_parses (buf : Buffer) : bool :=
  match buf with
  | n :: rest => Byte.to_nat n <=? List.length rest
  | [] => false
  end.

(** The nonce and the ciphertext of a binary envelope, read off the layout
    [u8(nonce_len) || nonce || ciphertext]; an envelope shorter than its
    length byte announces gives what is there. *)
Definition envelope_nonce (buf : Buffer) : Buffer :=
  firstn (Byte.to_nat (hd x00 buf)) (tl buf).

Definition envelope_ciphertext (buf : Buffer) : Buffer :=
  skipn (Byte.to_nat (hd x00 buf)) (tl buf).

(* ================================================================== *)
(** ** The collaborators of the module *)
(* ================================================================== *)

(** What the module imports from ['../../ecc']: the key types, the random
    nonce generator [key.random32ByteBuffer] (its entropy is an explicit
    state) and the two operations of [Aes] the codec calls.  The nonce
    argument of the [Aes] operations is a string. *)
Class Ecc : Type := {
  PrivateKey : Type;
  PublicKey : Type;
  toPublicKey : PrivateKey -> PublicKey;
  entropy : Type;
  random32ByteBuffer : entropy -> Buffer * entropy;
  encrypt_with_checksum :
    PrivateKey -> PublicKey -> string -> Buffer -> result Buffer;
  decrypt_with_checksum :
    PrivateKey -> PublicKey -> string -> Buffer -> result Buffer
}.

(** [JSON.stringify], [JSON.parse] and the UTF-8 conversions
    [Buffer.from(s, 'utf-8')] and [buf.toString('utf-8')].  [JSON.stringify]
    fails where JavaScript throws or gives [undefined]. *)
Class Json : Type := {
  Obj : Type;
  JSON_stringify : Obj -> result string;
  JSON_parse : string -> result Obj;
  utf8_encode : string -> Buffer;
  utf8_decode : Buffer -> string
}.

(** What the module imports from ['crypto']: [randomBytes] (the generator is
    an explicit state) and the block function of the AES family behind
    [createCipheriv] / [createDecipheriv], keyed by the raw key bytes.  The
    cipher objects of AES in CBC mode are modelled below; for every other
    algorithm name the platform's own constructors and the [update] and
    [final] of the objects they return are taken as they are ([other_...]),
    and nothing is assumed about them. *)
Class NodeCrypto : Type := {
  rng : Type;
  randomBytes : nat -> rng -> Buffer * rng;
  block_encrypt : Buffer -> Buffer -> Buffer;
  block_decrypt : Buffer -> Buffer -> Buffer;
  other_cipher : Type;
  other_createCipheriv :
    string -> Buffer -> option Buffer -> result other_cipher;
  other_createDecipheriv :
    string -> Buffer -> option Buffer -> result other_cipher;
  other_update : other_cipher -> Buffer -> result (Buffer * other_cipher);
  other_final : other_cipher -> result (Buffer * other_cipher)
}.

(* ================================================================== *)
(** ** The envelope codec *)
(* ================================================================== *)

Section EnvelopeCodec.
Context {E : Ecc} {J : Json}.

(** Encrypt object with subject private key and operator public key. *)
Definition encrypt_object (obj : Obj) (subject_private_key : PrivateKey)
    (operator_public_key : PublicKey) (g : entropy) : result (string * entropy) :=
  let (noncebuf, g') := random32ByteBuffer g in
  let nonce := Buffer_toString_base64 noncebuf in
  json <- JSON_stringify obj ;;
  cipherbuf <- encrypt_with_checksum subject_private_key operator_public_key
                 nonce (utf8_encode json) ;;
  Ok ((nonce ++ ":" ++ Buffer_toString_base64 cipherbuf)%string, g').

(** Decrypt string with subject public key and operator private key.
    [parts[1]] is [undefined] when the string has no ':', and
    [Buffer.from(undefined, 'base64')] throws a [TypeError]. *)
Definition decrypt_object (str : string) (subject_public_key : PublicKey)
    (operator_private_key : PrivateKey) : result Obj :=
  let parts := String_split ":" 2 str in
  match parts with
  | part0 :: part1 :: _ =>
      plainbuf <- decrypt_with_checksum operator_private_key subject_public_key
                    part0 (Buffer_from_base64 part1) ;;
      JSON_parse (utf8_decode plainbuf)
  | _ => Throw (TypeError "The first argument must be of type string")
  end.

(** Encrypt buffer with subject private key and operator public key. *)
Definition encrypt_buffer (buf : Buffer) (subject_private_key : PrivateKey)
    (operator_public_key : PublicKey) (g : entropy) : result (Buffer * entropy) :=
  let (noncebuf, g') := random32ByteBuffer g in
  cipherbuf <- encrypt_with_checksum subject_private_key operator_public_key
                 (Buffer_toString_base64 noncebuf) buf ;;
  Ok (Buffer_concat [ [u8 (List.length noncebuf)]; noncebuf; cipherbuf ], g').

(** Decrypt buffer with subject public key and operator private key. *)
Definition decrypt_buffer (buf : Buffer) (subject_public_key : PublicKey)
    (operator_private_key : PrivateKey) : result Buffer :=
  let noncelen := Buffer_index (Buffer_slice buf 0 1) 0 in
  let noncebuf := Buffer_slice buf 1 (js_to_index (js_one_plus noncelen)) in
  let cipherbuf := Buffer_slice_from buf (js_to_index (js_one_plus noncelen)) in
  plainbuf <- decrypt_with_checksum operator_private_key subject_public_key
                (Buffer_toString_base64 noncebuf) cipherbuf ;;
  Ok plainbuf.

(** [decrypt_object] as the description of the envelope has it, with the
    ciphertext segment being the whole remainder after the first ':'. *)
Definition decrypt_object_first_split (str : string)
    (subject_public_key : PublicKey) (operator_private_key : PrivateKey)
    : result Obj :=
  match split_first ":" str with
  | Some (part0, remainder) =>
      plainbuf <- decrypt_with_checksum operator_private_key subject_public_key
                    part0 (Buffer_from_base64 remainder) ;;
      JSON_parse (utf8_decode plainbuf)
  | None => Throw (TypeError "The first argument must be of type string")
  end.

(** The round-trip contract of the ECDH primitive: what one party encrypts
    for the other's public key, the other decrypts with the first one's
    public key, under the same nonce. *)
Definition aead_round_trip : Prop :=
  forall (priv_s priv_o : PrivateKey) (nonce : string) (m : Buffer),
  exists c,
    encrypt_with_checksum priv_s (toPublicKey priv_o) nonce m = Ok c
    /\ decrypt_with_checksum priv_o (toPublicKey priv_s) nonce c = Ok m.

Definition valid_key_pair (priv : PrivateKey) (pub : PublicKey) : Prop :=
  pub = toPublicKey priv.

(** [key.random32ByteBuffer] returns 32 bytes. *)
Definition random32_contract : Prop :=
  forall g, List.length (fst (random32ByteBuffer g)) = 32.

(** An object is serializable when [JSON.stringify] gives a text that
    survives the UTF-8 conversions and that [JSON.parse] reads back. *)
Definition serializable (o : Obj) : Prop :=
  exists s, JSON_stringify o = Ok s
            /\ utf8_decode (utf8_encode s) = s
            /\ JSON_parse s = Ok o.

End EnvelopeCodec.

(* ================================================================== *)
(** ** Content encryption settings *)
(* ================================================================== *)

Definition CONTENT_CIPHER_ALGORITHM : string := "aes-256-cbc".
Definition CONTENT_CIPHER_ALGORITHM_KEY_SIZE : nat := 32.
Definition CONTENT_CIPHER_ALGORITHM_IV_SIZE : nat := 16.
Definition CONTENT_CIPHER_ALGORITHM_NOENCRYPT : string := "noencrypt".

(** The content key object: [{ algo, key, iv }], with [key] and [iv] a hex
    string or [null]. *)
Record ContentKey : Type := {
  algo : string;
  key : option string;
  iv : option string
}.

(* ================================================================== *)
(** ** Cipher objects of the platform *)
(* ================================================================== *)

(** Bitwise exclusive or of two bytes. *)
Definition byte_xor (a b : byte) : byte :=
  let '(a0, (a1, (a2, (a3, (a4, (a5, (a6, a7))))))) := Byte.to_bits a in
  let '(b0, (b1, (b2, (b3, (b4, (b5, (b6, b7))))))) := Byte.to_bits b in
  Byte.of_bits
    (xorb a0 b0, (xorb a1 b1, (xorb a2 b2, (xorb a3 b3,
      (xorb a4 b4, (xorb a5 b5, (xorb a6 b6, xorb a7 b7))))))).

Definition xor_block (a b : Buffer) : Buffer :=
  map (fun p => byte_xor (fst p) (snd p)) (combine a b).

(** The block size of the AES family, in bytes. *)
Definition block_size : nat := 16.

(** Key and IV sizes of the ciphers whose objects are modelled here: AES in
    CBC mode, under the names below.  Any other name is left to the
    platform. *)
Definition cipher_sizes (name : string) : option (nat * nat) :=
  if String.eqb name "aes-128-cbc" then Some (16, 16)
  else if String.eqb name "aes-192-cbc" then Some (24, 16)
  else if String.eqb name "aes-256-cbc" then Some (32, 16)
  else None.

(** The state of a CBC cipher or decipher object: the key, the chaining
    block (the IV at first) and the input bytes not yet processed. *)
Record cipher_state : Type := {
  ckey : Buffer;
  chain : Buffer;
  pending : Buffer
}.

(** PKCS#7: a final block is filled with [n] bytes of value [n]. *)
Definition pkcs7_pad (p : Buffer) : Buffer :=
  let n := block_size - List.length p in
  p ++ repeat (u8 n) n.

Definition pkcs7_unpad (p : Buffer) : result Buffer :=
  let n := Byte.to_nat (last p x00) in
  if (1 <=? n) && (n <=? block_size)
     && forallb (Byte.eqb (u8 n)) (skipn (block_size - n) p)
  then Ok (firstn (block_size - n) p)
  else Throw (Error "bad decrypt").

Section ContentCipher.
Context {C : NodeCrypto}.

(** What [make_content_cipher_stream] and [make_content_decipher_stream]
    return.  A [stream.PassThrough] is a stream ([write], [end], [pipe],
    ...); it has no [update] and no [final] method.  [Cipheriv] and
    [Decipheriv] objects are streams that also have [update] and [final];
    [OtherCipher] is such an object for an algorithm other than AES in CBC
    mode. *)
Inductive Transform : Type :=
| PassThrough
| Cipheriv (st : cipher_state)
| Decipheriv (st : cipher_state)
| OtherCipher (oc : other_cipher).

(** The checks of [createCipheriv(algorithm, key, iv)] and
    [createDecipheriv] for a cipher of the given key and IV sizes: the IV
    must be present and of the cipher's IV size, the key of the cipher's key
    size. *)
Definition check_cipher_args (key_size iv_size : nat) (keybuf : Buffer)
    (ivbuf : option Buffer) : result cipher_state :=
  match ivbuf with
  | None => Throw (TypeError "Invalid initialization vector")
  | Some ivb =>
      if negb (List.length ivb =? iv_size)
      then Throw (TypeError "Invalid initialization vector")
      else if negb (List.length keybuf =? key_size)
      then Throw (RangeError "Invalid key length")
      else Ok {| ckey := keybuf; chain := ivb; pending := [] |}
  end.

Definition createCipheriv (algorithm : string) (keybuf : Buffer)
    (ivbuf : option Buffer) : result Transform :=
  match cipher_sizes algorithm with
  | Some (key_size, iv_size) =>
      st <- check_cipher_args key_size iv_size keybuf ivbuf ;;
      Ok (Cipheriv st)
  | None =>
      oc <- other_createCipheriv algorithm keybuf ivbuf ;;
      Ok (OtherCipher oc)
  end.

Definition createDecipheriv (algorithm : string) (keybuf : Buffer)
    (ivbuf : option Buffer) : result Transform :=
  match cipher_sizes algorithm with
  | Some (key_size, iv_size) =>
      st <- check_cipher_args key_size iv_size keybuf ivbuf ;;
      Ok (Decipheriv st)
  | None =>
      oc <- other_createDecipheriv algorithm keybuf ivbuf ;;
      Ok (OtherCipher oc)
  end.

(** [cipher.update(input)]: every completed block is chained and encrypted;
    an incomplete tail stays in the object. *)
Fixpoint cipher_feed (st : cipher_state) (input : Buffer)
    : Buffer * cipher_state :=
  match input with
  | [] => ([], st)
  | b :: rest =>
      let pend := pending st ++ [b] in
      if List.length pend =? block_size then
        let c := block_encrypt (ckey st) (xor_block pend (chain st)) in
        let (out, st') :=
          cipher_feed {| ckey := ckey st; chain := c; pending := [] |} rest in
        (c ++ out, st')
      else
        cipher_feed {| ckey := ckey st; chain := chain st; pending := pend |}
          rest
  end.

(** [cipher.final()]: the tail is padded to a block and encrypted. *)
Definition cipher_final (st : cipher_state) : result (Buffer * cipher_state) :=
  let c := block_encrypt (ckey st)
             (xor_block (pkcs7_pad (pending st)) (chain st)) in
  Ok (c, {| ckey := ckey st; chain := c; pending := [] |}).

(** [decipher.update(input)]: a completed block is decrypted only when more
    input follows it; the last block is kept for [final]. *)
Fixpoint decipher_feed (st : cipher_state) (input : Buffer)
    : Buffer * cipher_state :=
  match input with
  | [] => ([], st)
  | b :: rest =>
      if List.length (pending st) =? block_size then
        let p := xor_block (block_decrypt (ckey st) (pending st)) (chain st) in
        let (out, st') :=
          decipher_feed
            {| ckey := ckey st; chain := pending st; pending := [b] |} rest in
        (p ++ out, st')
      else
        decipher_feed
          {| ckey := ckey st; chain := chain st; pending := pending st ++ [b] |}
          rest
  end.

(** [decipher.final()]: the kept block is decrypted and its padding
    removed. *)
Definition decipher_final (st : cipher_state)
    : result (Buffer * cipher_state) :=
  if List.length (pending st) =? block_size then
    p <- pkcs7_unpad
           (xor_block (block_decrypt (ckey st) (pending st)) (chain st)) ;;
    Ok (p, {| ckey := ckey st; chain := pending st; pending := [] |})
  else Throw (Error "wrong final block length").

(** The method call [transform.update(input)]. *)
Definition Transform_update (transform : Transform) (input : Buffer)
    : result (Buffer * Transform) :=
  match transform with
  | PassThrough => Throw (TypeError "transform.update is not a function")
  | Cipheriv st =>
      let (out, st') := cipher_feed st input in Ok (out, Cipheriv st')
  | Decipheriv st =>
      let (out, st') := decipher_feed st input in Ok (out, Decipheriv st')
  | OtherCipher oc =>
      '(out, oc') <- other_update oc input ;; Ok (out, OtherCipher oc')
  end.

(** The method call [transform.final()]. *)
Definition Transform_final (transform : Transform)
    : result (Buffer * Transform) :=
  match transform with
  | PassThrough => Throw (TypeError "transform.final is not a function")
  | Cipheriv st =>
      '(out, st') <- cipher_final st ;; Ok (out, Cipheriv st')
  | Decipheriv st =>
      '(out, st') <- decipher_final st ;; Ok (out, Decipheriv st')
  | OtherCipher oc =>
      '(out, oc') <- other_final oc ;; Ok (out, OtherCipher oc')
  end.

(** The whole output of a cipher object fed one buffer and finalized, and of
    a decipher object likewise: what [crypto_content_transform] computes on
    them. *)
Definition encrypt_stream (st : cipher_state) (input : Buffer) : Buffer :=
  let (out, st') := cipher_feed st input in
  out ++ block_encrypt (ckey st')
           (xor_block (pkcs7_pad (pending st')) (chain st')).

Definition prepend (p : Buffer) (r : result Buffer) : result Buffer :=
  match r with
  | Ok x => Ok (p ++ x)
  | Throw e => Throw e
  end.

Definition decrypt_stream (st : cipher_state) (input : Buffer) : result Buffer :=
  let (out, st') := decipher_feed st input in
  if List.length (pending st') =? block_size then
    prepend out
      (pkcs7_unpad
         (xor_block (block_decrypt (ckey st') (pending st')) (chain st')))
  else Throw (Error "wrong final block length").

(** The plaintext of the block a decipher object keeps back, and the
    chaining block for the block that follows it. *)
Definition kept_plain (k cd pd : Buffer) : Buffer :=
  if List.length pd =? block_size
  then xor_block (block_decrypt k pd) cd
  else [].

Definition next_chain (cd pd : Buffer) : Buffer :=
  if List.length pd =? block_size then pd else cd.

(* ================================================================== *)
(** ** The content cipher *)
(* ================================================================== *)

(** Create content encryption info (algorithm and random key and random IV). *)
Definition make_content_key (g : rng) : ContentKey * rng :=
  let (k, g1) :=
    if 0 <? CONTENT_CIPHER_ALGORITHM_KEY_SIZE then
      let (b, g') := randomBytes CONTENT_CIPHER_ALGORITHM_KEY_SIZE g in
      (Some (Buffer_toString_hex b), g')
    else (None, g) in
  let (i, g2) :=
    if 0 <? CONTENT_CIPHER_ALGORITHM_IV_SIZE then
      let (b, g') := randomBytes CONTENT_CIPHER_ALGORITHM_IV_SIZE g1 in
      (Some (Buffer_toString_hex b), g')
    else (None, g1) in
  ({| algo := CONTENT_CIPHER_ALGORITHM; key := k; iv := i |}, g2).

(** Create content encryption info with no encryption. *)
Definition make_content_key_noencrypt : ContentKey :=
  {| algo := CONTENT_CIPHER_ALGORITHM_NOENCRYPT; key := None; iv := None |}.

(** [Buffer.from(v, 'hex')] for a string-or-null [v]: [null] is a
    [TypeError]. *)
Definition Buffer_from_hex_value (v : option string) : result Buffer :=
  match v with
  | Some s => Ok (Buffer_from_hex s)
  | None => Throw (TypeError "The first argument must be of type string")
  end.

(** [content_key.iv ? Buffer.from(content_key.iv, 'hex') : null]. *)
Definition iv_argument (v : option string) : result (option Buffer) :=
  if truthy v then
    b <- Buffer_from_hex_value v ;; Ok (Some b)
  else Ok None.

(** The arguments [make_content_cipher_stream] and
    [make_content_decipher_stream] evaluate, in their order, checked for a
    cipher of the given key and IV sizes. *)
Definition content_cipher_state (content_key : ContentKey)
    (key_size iv_size : nat) : result cipher_state :=
  keybuf <- Buffer_from_hex_value (key content_key) ;;
  ivbuf <- iv_argument (iv content_key) ;;
  check_cipher_args key_size iv_size keybuf ivbuf.

(** Create content encryption transform stream. *)
Definition make_content_cipher_stream (content_key : ContentKey)
    : result Transform :=
  if String.eqb (algo content_key) CONTENT_CIPHER_ALGORITHM_NOENCRYPT
  then Ok PassThrough
  else
    keybuf <- Buffer_from_hex_value (key content_key) ;;
    ivbuf <- iv_argument (iv content_key) ;;
    createCipheriv (algo content_key) keybuf ivbuf.

(** Create content decryption transform stream. *)
Definition make_content_decipher_stream (content_key : ContentKey)
    : result Transform :=
  if String.eqb (algo content_key) CONTENT_CIPHER_ALGORITHM_NOENCRYPT
  then Ok PassThrough
  else
    keybuf <- Buffer_from_hex_value (key content_key) ;;
    ivbuf <- iv_argument (iv content_key) ;;
    createDecipheriv (algo content_key) keybuf ivbuf.

(** Transform content buffer using cipher/decipher transform. *)
Definition crypto_content_transform (transform : Transform) (input : Buffer)
    : result Buffer :=
  '(buf_main, t1) <- Transform_update transform input ;;
  '(buf_final, _) <- Transform_final t1 ;;
  Ok (Buffer_concat [ buf_main; buf_final ]).

(** Encrypt content buffer using key. *)
Definition encrypt_content (plain_content_buf : Buffer)
    (content_key : ContentKey) : result Buffer :=
  cipher <- make_content_cipher_stream content_key ;;
  crypto_content_transform cipher plain_content_buf.

(** Decrypt content buffer using key. *)
Definition decrypt_content (cipher_content_buf : Buffer)
    (content_key : ContentKey) : result Buffer :=
  decipher <- make_content_decipher_stream content_key ;;
  crypto_content_transform decipher cipher_content_buf.

(** [randomBytes(n)] returns [n] bytes. *)
Definition randomBytes_contract : Prop :=
  forall n g, List.length (fst (randomBytes n g)) = n.

(** The block function is invertible on blocks, under a 256-bit key, and
    gives blocks. *)
Definition block_cipher_contract : Prop :=
  forall k b,
    List.length k = 32 -> List.length b = block_size ->
    List.length (block_encrypt k b) = block_size
    /\ block_decrypt k (block_encrypt k b) = b.

(** A real algorithm of the cipher table: one of the AES-CBC names, with its
    key and IV sizes (none of them is the sentinel). *)
Definition real_algorithm (name : string) (key_size iv_size : nat) : Prop :=
  name <> CONTENT_CIPHER_ALGORITHM_NOENCRYPT
  /\ cipher_sizes name = Some (key_size, iv_size).

(** The byte length of a hex string-or-null value; [null] has none. *)
Definition byte_length (v : option string) : option nat :=
  match v with
  | Some s => Some (List.length (Buffer_from_hex s))
  | None => None
  end.

End ContentCipher.

(* ================================================================== *)
(** ** The content cipher on strings *)
(* ================================================================== *)

Section ContentStrings.
Context {J : Json} {C : NodeCrypto}.

(** Encrypt content string using key: the UTF-8 bytes of the text are
    encrypted and the result is returned as base64. *)
Definition encrypt_content_str (plain_content_str : string)
    (content_key : ContentKey) : result string :=
  cipherbuf <- encrypt_content (utf8_encode plain_content_str) content_key ;;
  Ok (Buffer_toString_base64 cipherbuf).

(** Decrypt content string using key: the base64 text is decoded, decrypted
    and read as UTF-8. *)
Definition decrypt_content_str (cipher_content_str : string)
    (content_key : ContentKey) : result string :=
  plainbuf <- decrypt_content (Buffer_from_base64 cipher_content_str)
                content_key ;;
  Ok (utf8_decode plainbuf).

End ContentStrings.

(* ================================================================== *)
(** ** Small instances of the collaborators *)
(* ================================================================== *)

(** Executable stand-ins for the collaborators, on which the statements
    below are run.  Keys are numbers, the public key of [d] is [d] and the
    shared secret of [d] and [q] is [d * q]; the sealed message carries a
    one-byte tag of the shared secret and the nonce, checked on opening. *)
Module Sample.

Definition seal_tag (priv pub : nat) (nonce : string) : byte :=
  u8 (priv * pub + String.length nonce).

Definition seal (priv pub : nat) (nonce : string) (m : Buffer) : result Buffer :=
  Ok (seal_tag priv pub nonce :: m).

Definition unseal (priv pub : nat) (nonce : string) (c : Buffer)
    : result Buffer :=
  match c with
  | t :: m =>
      if Byte.eqb t (seal_tag priv pub nonce) then Ok m
      else Throw (Error "Invalid key, could not decrypt message")
  | [] => Throw (Error "Invalid key, could not decrypt message")
  end.

Definition ecc : Ecc := {|
  PrivateKey := nat;
  PublicKey := nat;
  toPublicKey := fun d => d;
  entropy := nat;
  random32ByteBuffer := fun g => (repeat (u8 g) 32, S g);
  encrypt_with_checksum := seal;
  decrypt_with_checksum := unseal
|}.

(** The JSON texts of the two booleans. *)
Definition stringify_bool (b : bool) : result string :=
  Ok (if b then "true" else "false")%string.

Definition parse_bool (s : string) : result bool :=
  if String.eqb s "true" then Ok true
  else if String.eqb s "false" then Ok false
  else Throw (SyntaxError "Unexpected token").

Definition json : Json := {|
  Obj := bool;
  JSON_stringify := stringify_bool;
  JSON_parse := parse_bool;
  utf8_encode := list_byte_of_string;
  utf8_decode := string_of_list_byte
|}.

(** A generator that counts, a block function that masks every byte of the
    block with the first byte of the key, and no cipher beyond the modelled
    ones. *)
Definition mask_block (k b : Buffer) : Buffer :=
  map (fun x => byte_xor x (hd x00 k)) b.

Definition node_crypto : NodeCrypto := {|
  rng := nat;
  randomBytes := fun n g => (repeat (u8 g) n, S g);
  block_encrypt := mask_block;
  block_decrypt := mask_block;
  other_cipher := unit;
  other_createCipheriv := fun _ _ _ => Throw (Error "Unknown cipher");
  other_createDecipheriv := fun _ _ _ => Throw (Error "Unknown cipher");
  other_update := fun _ _ => Throw (Error "Unknown cipher");
  other_final := fun _ => Throw (Error "Unknown cipher")
|}.

(** Collaborators that return the nonce and the ciphertext of the wire
    format example. *)
Definition literal_ecc : Ecc := {|
  PrivateKey := nat;
  PublicKey := nat;
  toPublicKey := fun d => d;
  entropy := unit;
  random32ByteBuffer := fun g => ([x01; x02], g);
  encrypt_with_checksum := fun _ _ _ _ => Ok [xaa; xbb; xcc];
  decrypt_with_checksum := unseal
|}.

End Sample.

(* ================================================================== *)
(** * Properties *)
(* ================================================================== *)

(** ** The platform model on known values *)

Example base64_known_values :
  Buffer_toString_base64 [x4d; x61; x6e] = "TWFu"%string
  /\ Buffer_toString_base64 [x4d; x61] = "TWE="%string
  /\ Buffer_toString_base64 [x4d] = "TQ=="%string
  /\ Buffer_from_base64 "TWFu" = [x4d; x61; x6e]
  /\ Buffer_from_base64 "TW Fu" = [x4d; x61; x6e]
  /\ Buffer_from_base64 "TWE=" = [x4d; x61]
  /\ Buffer_from_base64 "TQ" = [x4d].
Proof. repeat split. Qed.

Example hex_known_values :
  Buffer_toString_hex [x00; xff; x1a] = "00ff1a"%string
  /\ Buffer_from_hex "00FF1a" = [x00; xff; x1a]
  /\ Buffer_from_hex "00f" = [x00]
  /\ Buffer_from_hex "0g11" = [].
Proof. repeat split. Qed.

Example split_known_values :
  String_split ":" 2 "a:b" = ["a"; "b"]%string
  /\ String_split ":" 2 "a:b:c" = ["a"; "b"]%string
  /\ String_split ":" 2 "abc" = ["abc"]%string
  /\ String_split ":" 2 "" = [""]%string
  /\ String_split ":" 2 ":b" = [""; "b"]%string.
Proof. repeat split. Qed.

Example slice_known_values :
  Buffer_slice [x01; x02; x03] 1 3 = [x02; x03]
  /\ Buffer_slice [x01; x02; x03] 1 9 = [x02; x03]
  /\ Buffer_slice [x01; x02; x03] 1 0 = []
  /\ Buffer_index (Buffer_slice [] 0 1) 0 = None
  /\ js_to_index (js_one_plus None) = 0
  /\ u8 258 = x02.
Proof. repeat split. Qed.

Example pkcs7_known_values :
  pkcs7_pad [x41; x42; x43]
  = [x41; x42; x43; x0d; x0d; x0d; x0d; x0d; x0d; x0d; x0d; x0d; x0d; x0d;
     x0d; x0d]
  /\ pkcs7_unpad (pkcs7_pad [x41; x42; x43]) = Ok [x41; x42; x43]
  /\ pkcs7_unpad (repeat x00 16) = Throw (Error "bad decrypt").
Proof. repeat split. Qed.

(** ** Arithmetic of digits *)

Lemma div_add_small (q r d : nat) : r < d -> (q * d + r) / d = q.
Proof.
  intros Hr. rewrite Nat.div_add_l by lia. rewrite Nat.div_small; lia.
Qed.

Lemma mod_add_small (q r d : nat) : r < d -> (q * d + r) mod d = r.
Proof.
  intros Hr. rewrite Nat.add_comm, Nat.Div0.mod_add. apply Nat.mod_small; lia.
Qed.

Lemma div_mod_recompose (n d : nat) : n / d * d + n mod d = n.
Proof. pose proof (Nat.div_mod_eq n d). lia. Qed.

Lemma byte_lt_256 (b : byte) : Byte.to_nat b < 256.
Proof. pose proof (Byte.to_nat_bounded b). lia. Qed.

Lemma u8_to_nat (b : byte) : u8 (Byte.to_nat b) = b.
Proof.
  unfold u8. rewrite Nat.mod_small by apply byte_lt_256.
  now rewrite Byte.of_to_nat.
Qed.

Lemma to_nat_u8 (n : nat) : n < 256 -> Byte.to_nat (u8 n) = n.
Proof.
  intros Hn. unfold u8. rewrite Nat.mod_small by exact Hn.
  destruct (Byte.of_nat n) as [b|] eqn:Hb.
  - now apply Byte.to_of_nat.
  - apply Byte.of_nat_None_iff in Hb. lia.
Qed.

(** ** Hex *)

Lemma hex_value_digit (d : nat) : d < 16 -> hex_value (hex_digit d) = Some d.
Proof.
  intros Hd. do 16 (destruct d as [|d]; [reflexivity|]). lia.
Qed.

Lemma Buffer_from_hex_toString (buf : Buffer) :
  Buffer_from_hex (Buffer_toString_hex buf) = buf.
Proof.
  induction buf as [|b rest IH]; [reflexivity|].
  cbn [Buffer_toString_hex Buffer_from_hex].
  pose proof (byte_lt_256 b) as Hb.
  rewrite !hex_value_digit.
  - rewrite IH. f_equal.
    replace (16 * (Byte.to_nat b / 16) + Byte.to_nat b mod 16)
      with (Byte.to_nat b)
      by (pose proof (Nat.div_mod_eq (Byte.to_nat b) 16); lia).
    apply u8_to_nat.
  - apply Nat.mod_upper_bound. lia.
  - apply Nat.Div0.div_lt_upper_bound. lia.
Qed.

Lemma Buffer_from_hex_length (buf : Buffer) :
  List.length (Buffer_from_hex (Buffer_toString_hex buf)) = List.length buf.
Proof. now rewrite Buffer_from_hex_toString. Qed.

(** ** Base64 *)

Lemma unbase64_char (n : nat) : n < 64 -> unbase64 (b64_char n) = Some n.
Proof.
  intros Hn. do 64 (destruct n as [|n]; [reflexivity|]). lia.
Qed.

Lemma b64_char_not_pad (n : nat) :
  n < 64 -> Ascii.eqb (b64_char n) "="%char = false.
Proof.
  intros Hn. do 64 (destruct n as [|n]; [reflexivity|]). lia.
Qed.

Lemma b64_char_not_colon (n : nat) : Ascii.eqb (b64_char n) ":"%char = false.
Proof.
  do 64 (destruct n as [|n]; [reflexivity|]). reflexivity.
Qed.

Lemma b64_digits_char (n : nat) (rest : string) :
  n < 64 -> b64_digits (String (b64_char n) rest) = n :: b64_digits rest.
Proof.
  intros Hn. cbn [b64_digits].
  now rewrite b64_char_not_pad, unbase64_char.
Qed.

(** Induction on a buffer three bytes at a time. *)
Lemma buffer_ind3 (P : Buffer -> Prop) :
  P [] ->
  (forall x, P [x]) ->
  (forall x y, P [x; y]) ->
  (forall x y z rest, P rest -> P (x :: y :: z :: rest)) ->
  forall buf, P buf.
Proof.
  intros H0 H1 H2 H3.
  assert (Hall : forall buf, P buf /\ (forall x, P (x :: buf))
                             /\ (forall x y, P (x :: y :: buf))).
  { induction buf as [|z rest [IH0 [IH1 IH2]]].
    - repeat split; auto.
    - repeat split; auto. }
  intros buf. apply Hall.
Qed.

Lemma digit1_lt (a : nat) : a < 256 -> a / 4 < 64.
Proof. intros Ha. apply Nat.Div0.div_lt_upper_bound. lia. Qed.

Lemma digit2_lt (a b : nat) : b < 256 -> (a mod 4) * 16 + b / 16 < 64.
Proof.
  intros Hb. pose proof (Nat.mod_upper_bound a 4).
  assert (b / 16 < 16) by (apply Nat.Div0.div_lt_upper_bound; lia). lia.
Qed.

Lemma digit3_lt (b c : nat) : c < 256 -> (b mod 16) * 4 + c / 64 < 64.
Proof.
  intros Hc. pose proof (Nat.mod_upper_bound b 16).
  assert (c / 64 < 4) by (apply Nat.Div0.div_lt_upper_bound; lia). lia.
Qed.

Lemma digit4_lt (c : nat) : c mod 64 < 64.
Proof. apply Nat.mod_upper_bound. lia. Qed.

Lemma byte1_of_digits (a b : nat) :
  b < 256 -> a / 4 * 4 + ((a mod 4) * 16 + b / 16) / 16 = a.
Proof.
  intros Hb.
  rewrite div_add_small by (apply Nat.Div0.div_lt_upper_bound; lia).
  apply div_mod_recompose.
Qed.

Lemma byte2_of_digits (a b c : nat) :
  b < 256 -> c < 256 ->
  (((a mod 4) * 16 + b / 16) mod 16) * 16 + ((b mod 16) * 4 + c / 64) / 4 = b.
Proof.
  intros Hb Hc.
  rewrite mod_add_small by (apply Nat.Div0.div_lt_upper_bound; lia).
  rewrite div_add_small by (apply Nat.Div0.div_lt_upper_bound; lia).
  apply div_mod_recompose.
Qed.

Lemma byte3_of_digits (b c : nat) :
  c < 256 -> (((b mod 16) * 4 + c / 64) mod 4) * 64 + c mod 64 = c.
Proof.
  intros Hc.
  rewrite mod_add_small by (apply Nat.Div0.div_lt_upper_bound; lia).
  apply div_mod_recompose.
Qed.

Lemma digit2_lt_tail (a : nat) : (a mod 4) * 16 < 64.
Proof. pose proof (Nat.mod_upper_bound a 4). lia. Qed.

Lemma digit3_lt_tail (b : nat) : (b mod 16) * 4 < 64.
Proof. pose proof (Nat.mod_upper_bound b 16). lia. Qed.

Ltac digit_bound :=
  first [ apply digit1_lt; assumption
        | apply digit2_lt; assumption
        | apply digit3_lt; assumption
        | apply digit4_lt
        | apply digit2_lt_tail
        | apply digit3_lt_tail ].

(** Decoding inverts encoding. *)
Lemma Buffer_from_base64_toString (buf : Buffer) :
  Buffer_from_base64 (Buffer_toString_base64 buf) = buf.
Proof.
  unfold Buffer_from_base64.
  induction buf as [|x|x y|x y z rest IH] using buffer_ind3.
  - reflexivity.
  - pose proof (byte_lt_256 x) as Hx.
    cbn [Buffer_toString_base64].
    rewrite !b64_digits_char by digit_bound.
    cbn [b64_digits Ascii.eqb Bool.eqb b64_bytes].
    replace ((Byte.to_nat x mod 4) * 16) with ((Byte.to_nat x mod 4) * 16 + 0 / 16)
      by (cbn; lia).
    rewrite byte1_of_digits by lia. now rewrite u8_to_nat.
  - pose proof (byte_lt_256 x) as Hx. pose proof (byte_lt_256 y) as Hy.
    cbn [Buffer_toString_base64].
    rewrite !b64_digits_char by digit_bound.
    cbn [b64_digits Ascii.eqb Bool.eqb b64_bytes].
    rewrite byte1_of_digits by assumption.
    replace ((Byte.to_nat y mod 16) * 4) with ((Byte.to_nat y mod 16) * 4 + 0 / 64)
      by (cbn; lia).
    rewrite byte2_of_digits by lia. now rewrite !u8_to_nat.
  - pose proof (byte_lt_256 x) as Hx. pose proof (byte_lt_256 y) as Hy.
    pose proof (byte_lt_256 z) as Hz.
    cbn [Buffer_toString_base64].
    rewrite !b64_digits_char by digit_bound.
    cbn [b64_bytes]. rewrite IH.
    rewrite byte1_of_digits, byte2_of_digits, byte3_of_digits by assumption.
    now rewrite !u8_to_nat.
Qed.

(** No ':' occurs in a base64 text. *)
Lemma base64_no_colon (buf : Buffer) :
  occurs ":" (Buffer_toString_base64 buf) = false.
Proof.
  induction buf as [|x|x y|x y z rest IH] using buffer_ind3;
    cbn [Buffer_toString_base64 occurs];
    rewrite ?b64_char_not_colon, ?IH; reflexivity.
Qed.

(** ** Splitting *)

Lemma split_first_none (sep : ascii) (s : string) :
  occurs sep s = false -> split_first sep s = None.
Proof.
  induction s as [|c rest IH]; cbn; [reflexivity|].
  destruct (Ascii.eqb c sep); cbn; [discriminate|].
  intros H. now rewrite IH.
Qed.

Lemma split_first_some_occurs (sep : ascii) (s a r : string) :
  split_first sep s = Some (a, r) -> occurs sep s = true.
Proof.
  destruct (occurs sep s) eqn:Hocc; [reflexivity|].
  now rewrite split_first_none.
Qed.

Lemma split_first_app (sep : ascii) (a b : string) :
  occurs sep a = false ->
  split_first sep (a ++ String sep b)%string = Some (a, b).
Proof.
  induction a as [|c rest IH]; cbn.
  - now rewrite Ascii.eqb_refl.
  - destruct (Ascii.eqb c sep); cbn; [discriminate|].
    intros H. now rewrite IH.
Qed.

Lemma before_sep_no_sep (sep : ascii) (s : string) :
  occurs sep s = false -> before_sep sep s = s.
Proof.
  induction s as [|c rest IH]; cbn; [reflexivity|].
  destruct (Ascii.eqb c sep); cbn; [discriminate|].
  intros H. now rewrite IH.
Qed.

Lemma split_on_head (sep : ascii) (s : string) :
  exists segs, split_on sep s = before_sep sep s :: segs.
Proof.
  induction s as [|c rest [segs IH]]; cbn.
  - now exists [].
  - destruct (Ascii.eqb c sep).
    + now exists (split_on sep rest).
    + rewrite IH. now exists segs.
Qed.

Lemma split_on_first (sep : ascii) (s : string) :
  split_on sep s =
  match split_first sep s with
  | Some (a, r) => a :: split_on sep r
  | None => [s]
  end.
Proof.
  induction s as [|c rest IH]; cbn; [reflexivity|].
  destruct (Ascii.eqb c sep); [reflexivity|].
  rewrite IH. now destruct (split_first sep rest) as [[a r]|].
Qed.

(** [s.split(sep, 2)]: the piece before the first separator and the piece
    between the first and the second one. *)
Lemma String_split_two (sep : ascii) (s : string) :
  String_split sep 2 s =
  match split_first sep s with
  | Some (a, r) => [a; before_sep sep r]
  | None => [s]
  end.
Proof.
  unfold String_split. rewrite split_on_first.
  destruct (split_first sep s) as [[a r]|]; [|reflexivity].
  destruct (split_on_head sep r) as [segs ->]. reflexivity.
Qed.

(** ** The envelope codec *)

Section EnvelopeFacts.
Context {E : Ecc} {J : Json}.

Lemma decrypt_object_unfold (str : string) (pub : PublicKey) (priv : PrivateKey) :
  decrypt_object str pub priv =
  match split_first ":" str with
  | Some (part0, remainder) =>
      plainbuf <- decrypt_with_checksum priv pub part0
                    (Buffer_from_base64 (before_sep ":" remainder)) ;;
      JSON_parse (utf8_decode plainbuf)
  | None => Throw (TypeError "The first argument must be of type string")
  end.
Proof.
  unfold decrypt_object. rewrite String_split_two.
  now destruct (split_first ":" str) as [[a r]|].
Qed.

Lemma decrypt_buffer_unfold (buf : Buffer) (pub : PublicKey) (priv : PrivateKey) :
  decrypt_buffer buf pub priv =
  decrypt_with_checksum priv pub
    (Buffer_toString_base64 (envelope_nonce buf)) (envelope_ciphertext buf).
Proof.
  unfold decrypt_buffer, envelope_nonce, envelope_ciphertext.
  destruct buf as [|n rest]; cbn.
  - now destruct (decrypt_with_checksum priv pub "" []).
  - unfold Buffer_slice, Buffer_slice_from. cbn.
    rewrite Nat.sub_0_r.
    now destruct (decrypt_with_checksum priv pub _ _).
Qed.

Lemma decrypt_buffer_framed (nonce cipher : Buffer) (pub : PublicKey)
    (priv : PrivateKey) :
  List.length nonce < 256 ->
  decrypt_buffer (Buffer_concat [ [u8 (List.length nonce)]; nonce; cipher ])
    pub priv =
  decrypt_with_checksum priv pub (Buffer_toString_base64 nonce) cipher.
Proof.
  intros Hlen. rewrite decrypt_buffer_unfold.
  unfold envelope_nonce, envelope_ciphertext, Buffer_concat. cbn.
  rewrite app_nil_r, to_nat_u8 by exact Hlen.
  rewrite firstn_app, Nat.sub_diag, firstn_all, firstn_O, app_nil_r.
  rewrite skipn_app, Nat.sub_diag, skipn_all. reflexivity.
Qed.

End EnvelopeFacts.

(** The sample primitive honours the round-trip contract, its nonce
    generator gives 32 bytes and [true] is serializable. *)
Lemma sample_aead_round_trip : aead_round_trip (E := Sample.ecc).
Proof.
  intros priv_s priv_o nonce m. cbn.
  exists (Sample.seal_tag priv_s priv_o nonce :: m). split; [reflexivity|].
  unfold Sample.unseal, Sample.seal_tag.
  rewrite (Nat.mul_comm priv_o priv_s).
  now rewrite (Byte.byte_dec_lb eq_refl).
Qed.

Lemma sample_random32 : random32_contract (E := Sample.ecc).
Proof. intros g. apply repeat_length. Qed.

Lemma sample_serializable : serializable (J := Sample.json) true.
Proof. exists "true"%string. repeat split. Qed.

Section EnvelopeClaims.
Context {E : Ecc} {J : Json}.

(** C1. Round trip of objects: under the round-trip contract of the ECDH
    primitive, what [encrypt_object] produces for a serializable object,
    with the subject's private key and the operator's public key,
    [decrypt_object] reads back to the same object with the subject's public
    key and the operator's private key, whatever nonce was drawn. *)
Theorem object_round_trip :
  aead_round_trip ->
  forall (o : Obj) (priv_s : PrivateKey) (pub_s : PublicKey)
         (priv_o : PrivateKey) (pub_o : PublicKey) (g : entropy),
    serializable o ->
    valid_key_pair priv_s pub_s ->
    valid_key_pair priv_o pub_o ->
    exists env g',
      encrypt_object o priv_s pub_o g = Ok (env, g')
      /\ decrypt_object env pub_s priv_o = Ok o.
Proof.
  intros Hrt o priv_s pub_s priv_o pub_o g (s & Hs & Hutf & Hparse) -> ->.
  unfold encrypt_object.
  destruct (random32ByteBuffer g) as [noncebuf g'].
  rewrite Hs. cbn [bind].
  destruct (Hrt priv_s priv_o (Buffer_toString_base64 noncebuf) (utf8_encode s))
    as (c & Henc & Hdec).
  rewrite Henc. cbn [bind].
  eexists. exists g'. split; [reflexivity|].
  rewrite decrypt_object_unfold.
  change (":" ++ Buffer_toString_base64 c)%string
    with (String ":" (Buffer_toString_base64 c)).
  rewrite split_first_app by apply base64_no_colon.
  rewrite before_sep_no_sep by apply base64_no_colon.
  rewrite Buffer_from_base64_toString, Hdec. cbn [bind].
  now rewrite Hutf.
Qed.

(** C2. Round trip of buffers, the empty buffer included: under the
    round-trip contract of the primitive and a 32-byte nonce generator,
    [decrypt_buffer] gives back the buffer that [encrypt_buffer] sealed. *)
Theorem buffer_round_trip :
  aead_round_trip ->
  random32_contract ->
  forall (b : Buffer) (priv_s : PrivateKey) (pub_s : PublicKey)
         (priv_o : PrivateKey) (pub_o : PublicKey) (g : entropy),
    valid_key_pair priv_s pub_s ->
    valid_key_pair priv_o pub_o ->
    exists env g',
      encrypt_buffer b priv_s pub_o g = Ok (env, g')
      /\ decrypt_buffer env pub_s priv_o = Ok b.
Proof.
  intros Hrt Hrand b priv_s pub_s priv_o pub_o g -> ->.
  unfold encrypt_buffer.
  pose proof (Hrand g) as Hlen.
  destruct (random32ByteBuffer g) as [noncebuf g']. cbn [fst] in Hlen.
  destruct (Hrt priv_s priv_o (Buffer_toString_base64 noncebuf) b)
    as (c & Henc & Hdec).
  rewrite Henc. cbn [bind].
  eexists. exists g'. split; [reflexivity|].
  rewrite decrypt_buffer_framed by lia. exact Hdec.
Qed.

(** C5. Layout of the buffer envelope: one byte holding the nonce's length,
    then the nonce, then the ciphertext; for the nonce [01 02] and the
    ciphertext [AA BB CC] the envelope is [02 01 02 AA BB CC]. *)
Theorem buffer_envelope_layout :
  forall (buf : Buffer) (priv : PrivateKey) (pub : PublicKey) (g g' : entropy)
         (noncebuf cipherbuf : Buffer),
    random32ByteBuffer g = (noncebuf, g') ->
    encrypt_with_checksum priv pub (Buffer_toString_base64 noncebuf) buf
      = Ok cipherbuf ->
    encrypt_buffer buf priv pub g
      = Ok (u8 (List.length noncebuf) :: noncebuf ++ cipherbuf, g')
    /\ (noncebuf = [x01; x02] -> cipherbuf = [xaa; xbb; xcc] ->
        encrypt_buffer buf priv pub g
          = Ok ([x02; x01; x02; xaa; xbb; xcc], g')).
Proof.
  intros buf priv pub g g' noncebuf cipherbuf Hrand Henc.
  assert (Hlayout : encrypt_buffer buf priv pub g
                    = Ok (u8 (List.length noncebuf) :: noncebuf ++ cipherbuf, g')).
  { unfold encrypt_buffer. rewrite Hrand, Henc. cbn [bind].
    unfold Buffer_concat. cbn. now rewrite app_nil_r. }
  split; [exact Hlayout|].
  intros -> ->. exact Hlayout.
Qed.

(** C6, as the code has it.  [decrypt_object] takes as nonce segment
    everything before the first ':' and as ciphertext segment the text
    between the first ':' and the second one (the rest of the string when
    there is no second ':'); when the remainder after the first ':' holds no
    further ':', the ciphertext segment is that whole remainder. *)
Theorem decrypt_object_segments :
  forall (str part0 remainder : string) (pub : PublicKey) (priv : PrivateKey),
    split_first ":" str = Some (part0, remainder) ->
    String_split ":" 2 str = [part0; before_sep ":" remainder]
    /\ decrypt_object str pub priv
       = (plainbuf <- decrypt_with_checksum priv pub part0
                        (Buffer_from_base64 (before_sep ":" remainder)) ;;
          JSON_parse (utf8_decode plainbuf))
    /\ (occurs ":" remainder = false ->
        before_sep ":" remainder = remainder
        /\ decrypt_object str pub priv
           = decrypt_object_first_split str pub priv).
Proof.
  intros str part0 remainder pub priv Hsplit.
  split; [|split].
  - now rewrite String_split_two, Hsplit.
  - now rewrite decrypt_object_unfold, Hsplit.
  - intros Hno. split; [now apply before_sep_no_sep|].
    rewrite decrypt_object_unfold. unfold decrypt_object_first_split.
    rewrite Hsplit. now rewrite before_sep_no_sep.
Qed.

(** C7, as the code has it.  A text envelope without ':' fails with a
    [TypeError]; when the primitive rejects the nonce and ciphertext that
    the codec extracted, [decrypt_object] and [decrypt_buffer] fail with the
    primitive's own error; and a value they return is the primitive's output
    for the extracted nonce and ciphertext (read as JSON for objects). *)
Theorem envelope_errors_surface :
  forall (str : string) (buf : Buffer) (pub : PublicKey) (priv : PrivateKey),
    (occurs ":" str = false ->
     decrypt_object str pub priv
       = Throw (TypeError "The first argument must be of type string"))
    /\ (forall part0 remainder e,
          split_first ":" str = Some (part0, remainder) ->
          decrypt_with_checksum priv pub part0
            (Buffer_from_base64 (before_sep ":" remainder)) = Throw e ->
          decrypt_object str pub priv = Throw e)
    /\ (forall o,
          decrypt_object str pub priv = Ok o ->
          exists part0 remainder plainbuf,
            split_first ":" str = Some (part0, remainder)
            /\ decrypt_with_checksum priv pub part0
                 (Buffer_from_base64 (before_sep ":" remainder)) = Ok plainbuf
            /\ JSON_parse (utf8_decode plainbuf) = Ok o)
    /\ (forall e,
          decrypt_with_checksum priv pub
            (Buffer_toString_base64 (envelope_nonce buf))
            (envelope_ciphertext buf) = Throw e ->
          decrypt_buffer buf pub priv = Throw e)
    /\ (forall p,
          decrypt_buffer buf pub priv = Ok p ->
          decrypt_with_checksum priv pub
            (Buffer_toString_base64 (envelope_nonce buf))
            (envelope_ciphertext buf) = Ok p).
Proof.
  intros str buf pub priv. repeat split.
  - intros Hno. rewrite decrypt_object_unfold.
    now rewrite split_first_none.
  - intros part0 remainder e Hsplit Hprim.
    rewrite decrypt_object_unfold, Hsplit, Hprim. reflexivity.
  - intros o. rewrite decrypt_object_unfold.
    destruct (split_first ":" str) as [[part0 remainder]|]; [|discriminate].
    destruct (decrypt_with_checksum priv pub part0 _) as [plainbuf|e] eqn:Hprim;
      cbn [bind]; [|discriminate].
    intros Hparse. now exists part0, remainder, plainbuf.
  - intros e Hprim. now rewrite decrypt_buffer_unfold.
  - intros p. now rewrite decrypt_buffer_unfold.
Qed.

(** C10. Parsing of the binary envelope is total and validates nothing:
    whatever the buffer, [decrypt_buffer] is the primitive applied to the
    nonce and the ciphertext sliced off it; a nonce length beyond the bytes
    present gives a shorter nonce and an empty ciphertext, and the empty
    buffer an empty nonce and an empty ciphertext. *)
Theorem decrypt_buffer_total :
  forall (buf : Buffer) (pub : PublicKey) (priv : PrivateKey),
    decrypt_buffer buf pub priv
      = decrypt_with_checksum priv pub
          (Buffer_toString_base64 (envelope_nonce buf))
          (envelope_ciphertext buf)
    /\ List.length (envelope_nonce buf)
       = Nat.min (Byte.to_nat (hd x00 buf)) (List.length (tl buf))
    /\ List.length (envelope_ciphertext buf)
       = List.length (tl buf) - Byte.to_nat (hd x00 buf)
    /\ (binary_envelope_parses buf = false ->
        envelope_nonce buf = tl buf /\ envelope_ciphertext buf = []).
Proof.
  intros buf pub priv.
  split; [apply decrypt_buffer_unfold|].
  split; [apply length_firstn|].
  split; [apply length_skipn|].
  intros Hshort. unfold envelope_nonce, envelope_ciphertext.
  destruct buf as [|n rest]; [now split|].
  cbn [binary_envelope_parses hd tl] in *. apply Nat.leb_gt in Hshort.
  split; [apply firstn_all2 | apply skipn_all2]; lia.
Qed.

End EnvelopeClaims.

(** *** The envelope codec on the sample collaborators *)

Lemma object_round_trip_witness :
  aead_round_trip (E := Sample.ecc)
  /\ serializable (J := Sample.json) true
  /\ exists env g',
       encrypt_object (E := Sample.ecc) (J := Sample.json) true 3 5 0
         = Ok (env, g')
       /\ decrypt_object (E := Sample.ecc) (J := Sample.json) env 3 5 = Ok true.
Proof.
  split; [exact sample_aead_round_trip|].
  split; [exact sample_serializable|].
  exact (object_round_trip (E := Sample.ecc) (J := Sample.json)
           sample_aead_round_trip true 3 3 5 5 0
           sample_serializable eq_refl eq_refl).
Defined.

Lemma buffer_round_trip_witness :
  aead_round_trip (E := Sample.ecc)
  /\ random32_contract (E := Sample.ecc)
  /\ exists env g',
       encrypt_buffer (E := Sample.ecc) [] 3 5 0 = Ok (env, g')
       /\ decrypt_buffer (E := Sample.ecc) env 3 5 = Ok [].
Proof.
  split; [exact sample_aead_round_trip|].
  split; [exact sample_random32|].
  exact (buffer_round_trip (E := Sample.ecc)
           sample_aead_round_trip sample_random32 [] 3 3 5 5 0
           eq_refl eq_refl).
Defined.

Lemma buffer_envelope_layout_witness :
  encrypt_buffer (E := Sample.literal_ecc) [x68; x69] 3 5 tt
  = Ok ([x02; x01; x02; xaa; xbb; xcc], tt).
Proof.
  exact (proj2 (buffer_envelope_layout (E := Sample.literal_ecc)
                  [x68; x69] 3 5 tt tt [x01; x02] [xaa; xbb; xcc]
                  eq_refl eq_refl) eq_refl eq_refl).
Defined.

Lemma decrypt_object_segments_witness :
  String_split ":" 2 "AAAA:E3Ry:dWU=" = ["AAAA"; "E3Ry"]%string
  /\ before_sep ":" "E3RydWU=" = "E3RydWU="%string
  /\ decrypt_object (E := Sample.ecc) (J := Sample.json) "AAAA:E3RydWU=" 3 5
     = decrypt_object_first_split (E := Sample.ecc) (J := Sample.json)
         "AAAA:E3RydWU=" 3 5.
Proof.
  split.
  - exact (proj1 (decrypt_object_segments (E := Sample.ecc) (J := Sample.json)
                    "AAAA:E3Ry:dWU=" "AAAA" "E3Ry:dWU=" 3 5 eq_refl)).
  - exact (proj2 (proj2 (decrypt_object_segments (E := Sample.ecc)
                           (J := Sample.json) "AAAA:E3RydWU=" "AAAA" "E3RydWU="
                           3 5 eq_refl))
             eq_refl).
Defined.

Lemma envelope_errors_surface_witness :
  decrypt_object (E := Sample.ecc) (J := Sample.json) "O3RydWU=" 3 5
    = Throw (TypeError "The first argument must be of type string")
  /\ decrypt_object (E := Sample.ecc) (J := Sample.json) "AAAA:OnRydWU=" 3 5
     = Throw (Error "Invalid key, could not decrypt message")
  /\ decrypt_buffer (E := Sample.ecc) [x02; x00; x00; x3a; x74] 3 5
     = Throw (Error "Invalid key, could not decrypt message").
Proof.
  pose proof (envelope_errors_surface (E := Sample.ecc) (J := Sample.json)
                "O3RydWU=" [] 3 5) as (Hmissing & _).
  pose proof (envelope_errors_surface (E := Sample.ecc) (J := Sample.json)
                "AAAA:OnRydWU=" [x02; x00; x00; x3a; x74] 3 5)
    as (_ & Htext & _ & Hbinary & _).
  split; [exact (Hmissing eq_refl)|].
  split; [exact (Htext _ _ _ eq_refl eq_refl)|].
  exact (Hbinary _ eq_refl).
Defined.

Lemma decrypt_buffer_total_witness :
  binary_envelope_parses [x05; x01; x02] = false
  /\ envelope_nonce [x05; x01; x02] = [x01; x02]
  /\ envelope_ciphertext [x05; x01; x02] = []
  /\ decrypt_buffer (E := Sample.ecc) [x05; x01; x02] 3 5
     = Throw (Error "Invalid key, could not decrypt message").
Proof.
  pose proof (decrypt_buffer_total (E := Sample.ecc) [x05; x01; x02] 3 5)
    as (Hrun & _ & _ & Hshort).
  destruct (Hshort eq_refl) as [Hnonce Hcipher].
  split; [reflexivity|].
  split; [exact Hnonce|].
  split; [exact Hcipher|].
  rewrite Hrun, Hnonce, Hcipher. reflexivity.
Defined.

(** C6, as stated, fails: with a second ':' in the string the ciphertext
    segment is not the remainder after the first ':' but only its part up to
    the second ':', and the two readings decrypt differently. *)
Lemma remainder_not_taken :
  String_split ":" 2 "AAAA:E3Ry:dWU=" = ["AAAA"; "E3Ry"]%string
  /\ split_first ":" "AAAA:E3Ry:dWU=" = Some ("AAAA", "E3Ry:dWU=")%string
  /\ decrypt_object (E := Sample.ecc) (J := Sample.json) "AAAA:E3Ry:dWU=" 3 5
     = Throw (SyntaxError "Unexpected token")
  /\ decrypt_object_first_split (E := Sample.ecc) (J := Sample.json)
       "AAAA:E3Ry:dWU=" 3 5 = Ok true.
Proof. repeat apply conj; vm_compute; reflexivity. Qed.

(** C7, as stated, fails: an envelope whose ciphertext segment is not
    base64 (a space inside it) is not rejected; the decoder skips the space
    and the object comes back. *)
Lemma invalid_base64_accepted :
  well_formed_base64 "E3Ry dWU=" = false
  /\ text_envelope_parses "AAAA:E3Ry dWU=" = false
  /\ decrypt_object (E := Sample.ecc) (J := Sample.json) "AAAA:E3Ry dWU=" 3 5
     = Ok true.
Proof. repeat apply conj; vm_compute; reflexivity. Qed.

(** ** Blocks *)

Lemma byte_xor_cancel (a b : byte) : byte_xor (byte_xor a b) b = a.
Proof.
  unfold byte_xor.
  destruct (Byte.to_bits a)
    as [a0 [a1 [a2 [a3 [a4 [a5 [a6 a7]]]]]]] eqn:Ha.
  destruct (Byte.to_bits b)
    as [b0 [b1 [b2 [b3 [b4 [b5 [b6 b7]]]]]]] eqn:Hb.
  rewrite Byte.to_bits_of_bits.
  rewrite !xorb_assoc, !xorb_nilpotent, !xorb_false_r.
  rewrite <- Ha. apply Byte.of_bits_to_bits.
Qed.

Lemma xor_block_length (a b : Buffer) :
  List.length (xor_block a b) = Nat.min (List.length a) (List.length b).
Proof. unfold xor_block. now rewrite length_map, length_combine. Qed.

Lemma xor_block_cancel (a b : Buffer) :
  List.length a = List.length b -> xor_block (xor_block a b) b = a.
Proof.
  revert b. induction a as [|x a IH]; intros [|y b] Hlen;
    try discriminate; [reflexivity|].
  cbn in Hlen. injection Hlen as Hlen.
  unfold xor_block in *. cbn. rewrite byte_xor_cancel. f_equal.
  now apply IH.
Qed.

Lemma pkcs7_pad_length (p : Buffer) :
  List.length p < block_size -> List.length (pkcs7_pad p) = block_size.
Proof.
  intros Hp. unfold pkcs7_pad. rewrite length_app, repeat_length. lia.
Qed.

Lemma forallb_repeat (b : byte) (n : nat) :
  forallb (Byte.eqb b) (repeat b n) = true.
Proof.
  induction n as [|n IH]; [reflexivity|].
  cbn. now rewrite (Byte.byte_dec_lb eq_refl).
Qed.

Lemma last_app_repeat (p : Buffer) (b : byte) (n : nat) :
  0 < n -> last (p ++ repeat b n) x00 = b.
Proof.
  intros Hn. destruct n as [|n]; [lia|].
  replace (repeat b (S n)) with (repeat b n ++ [b]).
  - now rewrite app_assoc, last_last.
  - change [b] with (repeat b 1). rewrite <- repeat_app. f_equal. lia.
Qed.

Lemma pkcs7_unpad_pad (p : Buffer) :
  List.length p < block_size -> pkcs7_unpad (pkcs7_pad p) = Ok p.
Proof.
  intros Hp. unfold block_size in Hp.
  unfold pkcs7_unpad, pkcs7_pad.
  set (n := block_size - List.length p).
  assert (Hn : 1 <= n /\ n <= 16) by (unfold n, block_size; lia).
  rewrite last_app_repeat by lia.
  rewrite to_nat_u8 by lia.
  replace (block_size - n) with (List.length p) by (unfold n, block_size; lia).
  rewrite skipn_app, Nat.sub_diag, skipn_all, skipn_O. cbn [app].
  rewrite forallb_repeat.
  rewrite firstn_app, Nat.sub_diag, firstn_all, firstn_O, app_nil_r.
  destruct (1 <=? n) eqn:H1; [|apply Nat.leb_gt in H1; lia].
  destruct (n <=? block_size) eqn:H2;
    [|apply Nat.leb_gt in H2; unfold block_size in H2; lia].
  reflexivity.
Qed.

(** ** Cipher objects *)

Section CipherFacts.
Context {C : NodeCrypto}.

Lemma decipher_feed_fill (l : Buffer) :
  forall (k cd pd rest : Buffer),
    List.length pd + List.length l <= block_size ->
    decipher_feed {| ckey := k; chain := cd; pending := pd |} (l ++ rest)
    = decipher_feed {| ckey := k; chain := cd; pending := pd ++ l |} rest.
Proof.
  induction l as [|b l IH]; intros k cd pd rest Hlen.
  - now rewrite app_nil_r.
  - cbn [app decipher_feed pending ckey chain].
    cbn [List.length] in Hlen.
    destruct (List.length pd =? block_size) eqn:Hfull;
      [apply Nat.eqb_eq in Hfull; lia|].
    rewrite IH by (rewrite length_app; cbn; lia).
    now rewrite <- app_assoc.
Qed.

Lemma decipher_feed_block (k cd pd blk rest : Buffer) :
  List.length blk = block_size ->
  pd = [] \/ List.length pd = block_size ->
  decipher_feed {| ckey := k; chain := cd; pending := pd |} (blk ++ rest)
  = (kept_plain k cd pd
       ++ fst (decipher_feed
                 {| ckey := k; chain := next_chain cd pd; pending := blk |} rest),
     snd (decipher_feed
            {| ckey := k; chain := next_chain cd pd; pending := blk |} rest)).
Proof.
  intros Hblk [-> | Hpd].
  - rewrite decipher_feed_fill by (cbn; lia).
    cbn [app]. unfold kept_plain, next_chain. cbn.
    now destruct (decipher_feed _ rest).
  - destruct blk as [|b l]; [discriminate|].
    cbn [app decipher_feed pending ckey chain].
    unfold kept_plain, next_chain. rewrite Hpd, Nat.eqb_refl.
    cbn [List.length] in Hblk.
    rewrite decipher_feed_fill by (cbn; lia).
    cbn [app]. now destruct (decipher_feed _ rest).
Qed.

Lemma prepend_app (p q : Buffer) (r : result Buffer) :
  prepend (p ++ q) r = prepend p (prepend q r).
Proof. destruct r; cbn; [now rewrite app_assoc | reflexivity]. Qed.

Lemma decrypt_stream_block (k cd pd blk rest : Buffer) :
  List.length blk = block_size ->
  pd = [] \/ List.length pd = block_size ->
  decrypt_stream {| ckey := k; chain := cd; pending := pd |} (blk ++ rest)
  = prepend (kept_plain k cd pd)
      (decrypt_stream
         {| ckey := k; chain := next_chain cd pd; pending := blk |} rest).
Proof.
  intros Hblk Hpd. unfold decrypt_stream.
  rewrite decipher_feed_block by assumption.
  destruct (decipher_feed _ rest) as [out st']. cbn [fst snd].
  destruct (List.length (pending st') =? block_size); [|reflexivity].
  apply prepend_app.
Qed.

Lemma encrypt_stream_cons (k ce pe : Buffer) (b : byte) (rest : Buffer) :
  encrypt_stream {| ckey := k; chain := ce; pending := pe |} (b :: rest)
  = if List.length (pe ++ [b]) =? block_size
    then block_encrypt k (xor_block (pe ++ [b]) ce)
           ++ encrypt_stream
                {| ckey := k;
                   chain := block_encrypt k (xor_block (pe ++ [b]) ce);
                   pending := [] |} rest
    else encrypt_stream {| ckey := k; chain := ce; pending := pe ++ [b] |} rest.
Proof.
  unfold encrypt_stream. cbn [cipher_feed pending ckey chain].
  destruct (List.length (pe ++ [b]) =? block_size).
  - destruct (cipher_feed _ rest) as [out st']. now rewrite app_assoc.
  - reflexivity.
Qed.

(** What a decipher object in step with a cipher object gives back: the
    plaintext of the block it kept, then the cipher's pending bytes, then the
    input. *)
Lemma stream_round_trip :
  block_cipher_contract ->
  forall (input k ce pe cd pd : Buffer),
    List.length k = 32 ->
    List.length ce = block_size ->
    List.length pe < block_size ->
    pd = [] \/ List.length pd = block_size ->
    next_chain cd pd = ce ->
    decrypt_stream {| ckey := k; chain := cd; pending := pd |}
      (encrypt_stream {| ckey := k; chain := ce; pending := pe |} input)
    = Ok (kept_plain k cd pd ++ pe ++ input).
Proof.
  intros Hblock input.
  induction input as [|b rest IH]; intros k ce pe cd pd Hk Hce Hpe Hpd Hsync.
  - unfold encrypt_stream. cbn [cipher_feed pending ckey chain app].
    assert (Hpad : List.length (xor_block (pkcs7_pad pe) ce) = block_size)
      by (rewrite xor_block_length, pkcs7_pad_length, Hce by exact Hpe;
          apply Nat.min_id).
    destruct (Hblock k _ Hk Hpad) as [Hlen Hinv].
    rewrite <- (app_nil_r (block_encrypt k _)).
    rewrite decrypt_stream_block by assumption.
    rewrite Hsync. unfold decrypt_stream.
    cbn [decipher_feed pending ckey chain]. rewrite Hlen, Nat.eqb_refl.
    rewrite Hinv, xor_block_cancel
      by (rewrite pkcs7_pad_length, Hce by exact Hpe; reflexivity).
    rewrite pkcs7_unpad_pad by exact Hpe. cbn.
    now rewrite app_nil_r.
  - rewrite encrypt_stream_cons.
    destruct (List.length (pe ++ [b]) =? block_size) eqn:Hfull.
    + apply Nat.eqb_eq in Hfull.
      assert (Hx : List.length (xor_block (pe ++ [b]) ce) = block_size)
        by (rewrite xor_block_length, Hfull, Hce; apply Nat.min_id).
      destruct (Hblock k _ Hk Hx) as [Hlen Hinv].
      rewrite decrypt_stream_block by assumption.
      rewrite Hsync.
      rewrite IH; try assumption.
      * unfold kept_plain at 2. rewrite Hlen, Nat.eqb_refl.
        rewrite Hinv, xor_block_cancel by (rewrite Hfull, Hce; reflexivity).
        cbn [prepend app]. now rewrite <- !app_assoc.
      * cbn. unfold block_size. lia.
      * now right.
      * unfold next_chain. now rewrite Hlen, Nat.eqb_refl.
    + apply Nat.eqb_neq in Hfull.
      rewrite IH; try assumption.
      * now rewrite <- !app_assoc.
      * rewrite length_app in *. cbn [List.length] in *. lia.
Qed.

Lemma crypto_content_transform_cipher (st : cipher_state) (input : Buffer) :
  crypto_content_transform (Cipheriv st) input = Ok (encrypt_stream st input).
Proof.
  unfold crypto_content_transform, encrypt_stream, Transform_update.
  destruct (cipher_feed st input) as [out st']. cbn.
  now rewrite app_nil_r.
Qed.

Lemma crypto_content_transform_decipher (st : cipher_state) (input : Buffer) :
  crypto_content_transform (Decipheriv st) input = decrypt_stream st input.
Proof.
  unfold crypto_content_transform, decrypt_stream, Transform_update.
  destruct (decipher_feed st input) as [out st']. cbn [bind].
  unfold Transform_final, decipher_final.
  destruct (List.length (pending st') =? block_size); [|reflexivity].
  destruct (pkcs7_unpad _) as [p|e]; cbn; [|reflexivity].
  now rewrite app_nil_r.
Qed.

End CipherFacts.

(** ** The content cipher *)

Lemma sample_randomBytes : randomBytes_contract (C := Sample.node_crypto).
Proof. intros n g. apply repeat_length. Qed.

Lemma sample_block_cipher : block_cipher_contract (C := Sample.node_crypto).
Proof.
  intros k b _ Hb. cbn. unfold Sample.mask_block. split.
  - now rewrite length_map.
  - rewrite map_map. rewrite <- (map_id b) at 2.
    apply map_ext. intros x. apply byte_xor_cancel.
Qed.

Lemma cipher_sizes_iv (name : string) (key_size iv_size : nat) :
  cipher_sizes name = Some (key_size, iv_size) -> iv_size = 16.
Proof.
  unfold cipher_sizes.
  destruct (String.eqb name "aes-128-cbc"); [now intros [= _ <-]|].
  destruct (String.eqb name "aes-192-cbc"); [now intros [= _ <-]|].
  destruct (String.eqb name "aes-256-cbc"); [now intros [= _ <-]|].
  discriminate.
Qed.

Lemma well_sized_or_not (content_key : ContentKey) (key_size iv_size : nat) :
  (byte_length (key content_key) = Some key_size
   /\ byte_length (iv content_key) = Some iv_size)
  \/ (byte_length (key content_key) <> Some key_size
      \/ byte_length (iv content_key) <> Some iv_size).
Proof.
  destruct (byte_length (key content_key)) as [n|];
    [destruct (Nat.eq_dec n key_size) as [->|Hn]|].
  - destruct (byte_length (iv content_key)) as [m|];
      [destruct (Nat.eq_dec m iv_size) as [->|Hm]|].
    + now left.
    + right. right. congruence.
    + right. right. discriminate.
  - right. left. congruence.
  - right. left. discriminate.
Qed.

Lemma cipher_sizes_not_sentinel (name : string) (sizes : nat * nat) :
  cipher_sizes name = Some sizes ->
  String.eqb name CONTENT_CIPHER_ALGORITHM_NOENCRYPT = false.
Proof.
  intros Hsz.
  destruct (String.eqb name CONTENT_CIPHER_ALGORITHM_NOENCRYPT) eqn:Heq;
    [|reflexivity].
  apply String.eqb_eq in Heq. subst name. discriminate Hsz.
Qed.

Section StreamFacts.
Context {C : NodeCrypto}.

Lemma cipher_feed_ckey (input : Buffer) :
  forall st : cipher_state, ckey (snd (cipher_feed st input)) = ckey st.
Proof.
  induction input as [|b rest IH]; intros st; [reflexivity|].
  cbn [cipher_feed].
  destruct (List.length (pending st ++ [b]) =? block_size).
  - pose proof (IH {| ckey := ckey st;
                      chain := block_encrypt (ckey st)
                                 (xor_block (pending st ++ [b]) (chain st));
                      pending := [] |}) as Hrec.
    destruct (cipher_feed _ rest) as [out st']. exact Hrec.
  - apply (IH {| ckey := ckey st; chain := chain st;
                 pending := pending st ++ [b] |}).
Qed.

(** The output of a cipher run: what [update] gives, then the encrypted
    padded tail. *)
Lemma encrypt_stream_final (st : cipher_state) (input : Buffer) :
  encrypt_stream st input
  = fst (cipher_feed st input)
      ++ block_encrypt (ckey st)
           (xor_block (pkcs7_pad (pending (snd (cipher_feed st input))))
              (chain (snd (cipher_feed st input)))).
Proof.
  unfold encrypt_stream. rewrite <- (cipher_feed_ckey input st).
  now destruct (cipher_feed st input) as [out st'].
Qed.

Lemma encrypt_stream_length :
  block_cipher_contract ->
  forall (input k ce pe : Buffer),
    List.length k = 32 ->
    List.length ce = block_size ->
    List.length pe < block_size ->
    List.length (encrypt_stream {| ckey := k; chain := ce; pending := pe |} input)
    = 16 * ((List.length pe + List.length input) / 16 + 1).
Proof.
  intros Hblock input.
  induction input as [|b rest IH]; intros k ce pe Hk Hce Hpe.
  - unfold encrypt_stream. cbn [cipher_feed pending ckey chain app].
    assert (Hpad : List.length (xor_block (pkcs7_pad pe) ce) = block_size)
      by (rewrite xor_block_length, pkcs7_pad_length, Hce by exact Hpe;
          apply Nat.min_id).
    destruct (Hblock k _ Hk Hpad) as [Hlen _]. rewrite Hlen.
    cbn [List.length]. rewrite Nat.add_0_r.
    unfold block_size in *. rewrite Nat.div_small by exact Hpe. reflexivity.
  - rewrite encrypt_stream_cons.
    destruct (List.length (pe ++ [b]) =? block_size) eqn:Hfull.
    + apply Nat.eqb_eq in Hfull.
      assert (Hx : List.length (xor_block (pe ++ [b]) ce) = block_size)
        by (rewrite xor_block_length, Hfull, Hce; apply Nat.min_id).
      destruct (Hblock k _ Hk Hx) as [Hlen _].
      rewrite length_app, Hlen, IH; try assumption;
        [|cbn; unfold block_size; lia].
      rewrite length_app in Hfull. cbn [List.length] in *.
      unfold block_size in *.
      replace (List.length pe + S (List.length rest))
        with (1 * 16 + List.length rest) by lia.
      rewrite Nat.div_add_l by lia. rewrite Nat.add_0_l. lia.
    + apply Nat.eqb_neq in Hfull.
      rewrite length_app in Hfull. cbn [List.length] in Hfull.
      rewrite IH; try assumption;
        [|rewrite length_app; cbn [List.length]; unfold block_size in *; lia].
      rewrite length_app. cbn [List.length].
      now replace (List.length pe + 1 + List.length rest)
        with (List.length pe + S (List.length rest)) by lia.
Qed.

(** The bytes a decipher object holds after an update: the input is split
    into whole blocks and a kept part of 1 to 16 bytes (none only when
    nothing was fed). *)
Lemma decipher_feed_pending (input : Buffer) :
  forall (k cd pd : Buffer),
    List.length pd <= block_size ->
    exists q,
      List.length pd + List.length input
      = 16 * q
        + List.length
            (pending (snd (decipher_feed
                             {| ckey := k; chain := cd; pending := pd |} input)))
      /\ (0 < List.length pd + List.length input ->
          0 < List.length
                (pending (snd (decipher_feed
                                 {| ckey := k; chain := cd; pending := pd |}
                                 input)))).
Proof.
  induction input as [|b rest IH]; intros k cd pd Hpd.
  - exists 0. cbn. split; lia.
  - cbn [decipher_feed pending ckey chain].
    destruct (List.length pd =? block_size) eqn:Hfull.
    + apply Nat.eqb_eq in Hfull.
      destruct (IH k pd [b]) as (q & Hq & Hpos);
        [cbn; unfold block_size; lia|].
      destruct (decipher_feed _ rest) as [out st']. cbn [snd] in *.
      exists (S q). cbn [List.length] in *. unfold block_size in *.
      split; lia.
    + apply Nat.eqb_neq in Hfull.
      destruct (IH k cd (pd ++ [b])) as (q & Hq & Hpos);
        [rewrite length_app; cbn; lia|].
      rewrite length_app in Hq, Hpos. cbn [List.length] in *.
      exists q. split; lia.
Qed.

Lemma decrypt_stream_partial (k cd : Buffer) (input : Buffer) :
  input = [] \/ List.length input mod 16 <> 0 ->
  decrypt_stream {| ckey := k; chain := cd; pending := [] |} input
  = Throw (Error "wrong final block length").
Proof.
  intros Hbad. unfold decrypt_stream.
  destruct (decipher_feed_pending input k cd [])
    as (q & Hq & Hpos); [cbn; lia|].
  destruct (decipher_feed _ input) as [out st']. cbn [snd List.length] in *.
  destruct (List.length (pending st') =? block_size) eqn:Hfull; [|reflexivity].
  apply Nat.eqb_eq in Hfull. unfold block_size in Hfull.
  exfalso. destruct Hbad as [-> | Hmod].
  - cbn in Hq. lia.
  - apply Hmod. replace (List.length input) with (S q * 16) by lia.
    apply Nat.Div0.mod_mul.
Qed.

End StreamFacts.

Section ContentFacts.
Context {C : NodeCrypto}.

Lemma truthy_hex (buf : Buffer) :
  buf <> [] -> truthy (Some (Buffer_toString_hex buf)) = true.
Proof. destruct buf; [congruence | reflexivity]. Qed.

Lemma make_content_key_shape :
  randomBytes_contract ->
  forall g, exists kb ib g',
    make_content_key g
    = ({| algo := CONTENT_CIPHER_ALGORITHM;
          key := Some (Buffer_toString_hex kb);
          iv := Some (Buffer_toString_hex ib) |}, g')
    /\ List.length kb = CONTENT_CIPHER_ALGORITHM_KEY_SIZE
    /\ List.length ib = CONTENT_CIPHER_ALGORITHM_IV_SIZE.
Proof.
  intros Hrand g. unfold make_content_key.
  change (0 <? CONTENT_CIPHER_ALGORITHM_KEY_SIZE) with true.
  change (0 <? CONTENT_CIPHER_ALGORITHM_IV_SIZE) with true.
  cbv iota.
  pose proof (Hrand CONTENT_CIPHER_ALGORITHM_KEY_SIZE g) as Hk.
  destruct (randomBytes CONTENT_CIPHER_ALGORITHM_KEY_SIZE g) as [kb g1].
  pose proof (Hrand CONTENT_CIPHER_ALGORITHM_IV_SIZE g1) as Hi.
  destruct (randomBytes CONTENT_CIPHER_ALGORITHM_IV_SIZE g1) as [ib g2].
  now exists kb, ib, g2.
Qed.

(** For an algorithm of the table, both constructors are the checked
    arguments wrapped into a cipher and a decipher object. *)
Lemma table_streams (content_key : ContentKey) (key_size iv_size : nat) :
  cipher_sizes (algo content_key) = Some (key_size, iv_size) ->
  make_content_cipher_stream content_key
  = (st <- content_cipher_state content_key key_size iv_size ;;
     Ok (Cipheriv st))
  /\ make_content_decipher_stream content_key
     = (st <- content_cipher_state content_key key_size iv_size ;;
        Ok (Decipheriv st)).
Proof.
  intros Hsz.
  unfold make_content_cipher_stream, make_content_decipher_stream,
    content_cipher_state, createCipheriv, createDecipheriv.
  rewrite (cipher_sizes_not_sentinel _ _ Hsz), Hsz.
  destruct (Buffer_from_hex_value (key content_key)) as [keybuf|e];
    cbn [bind]; [|now split].
  destruct (iv_argument (iv content_key)) as [ivbuf|e]; cbn [bind];
    now split.
Qed.

(** What the checks give, by the key and the IV of the content key. *)
Lemma content_cipher_state_cases (content_key : ContentKey)
    (key_size iv_size : nat) :
  0 < iv_size ->
  content_cipher_state content_key key_size iv_size
  = match key content_key with
    | None => Throw (TypeError "The first argument must be of type string")
    | Some ks =>
        match iv content_key with
        | None => Throw (TypeError "Invalid initialization vector")
        | Some s =>
            if List.length (Buffer_from_hex s) =? iv_size then
              if List.length (Buffer_from_hex ks) =? key_size then
                Ok {| ckey := Buffer_from_hex ks;
                      chain := Buffer_from_hex s; pending := [] |}
              else Throw (RangeError "Invalid key length")
            else Throw (TypeError "Invalid initialization vector")
        end
    end.
Proof.
  intros Hpos. unfold content_cipher_state.
  destruct (key content_key) as [ks|]; cbn [Buffer_from_hex_value bind];
    [|reflexivity].
  unfold iv_argument.
  destruct (iv content_key) as [[|c s]|];
    cbn [truthy bind Buffer_from_hex_value]; unfold check_cipher_args.
  - destruct iv_size; [lia | reflexivity].
  - destruct (List.length (Buffer_from_hex (String c s)) =? iv_size);
      destruct (List.length (Buffer_from_hex ks) =? key_size); reflexivity.
  - reflexivity.
Qed.

Lemma well_sized_streams (content_key : ContentKey) (key_size iv_size : nat) :
  real_algorithm (algo content_key) key_size iv_size ->
  byte_length (key content_key) = Some key_size ->
  byte_length (iv content_key) = Some iv_size ->
  exists kb ib,
    List.length kb = key_size /\ List.length ib = iv_size
    /\ make_content_cipher_stream content_key
       = Ok (Cipheriv {| ckey := kb; chain := ib; pending := [] |})
    /\ make_content_decipher_stream content_key
       = Ok (Decipheriv {| ckey := kb; chain := ib; pending := [] |}).
Proof.
  intros [_ Hsz] Hkey Hiv.
  pose proof (cipher_sizes_iv _ _ _ Hsz) as ->.
  destruct (table_streams content_key key_size 16 Hsz) as [Hc Hd].
  rewrite Hc, Hd, content_cipher_state_cases by lia.
  destruct (key content_key) as [ks|]; [|discriminate].
  destruct (iv content_key) as [istr|]; [|discriminate].
  unfold byte_length in *.
  injection Hkey as Hkey. injection Hiv as Hiv.
  rewrite Hkey, Hiv, !Nat.eqb_refl. cbn [bind].
  exists (Buffer_from_hex ks), (Buffer_from_hex istr).
  now repeat split.
Qed.

Lemma wrong_size_streams (content_key : ContentKey) (key_size iv_size : nat) :
  real_algorithm (algo content_key) key_size iv_size ->
  byte_length (key content_key) <> Some key_size
  \/ byte_length (iv content_key) <> Some iv_size ->
  fails (make_content_cipher_stream content_key)
  /\ fails (make_content_decipher_stream content_key).
Proof.
  intros [_ Hsz] Hwrong.
  pose proof (cipher_sizes_iv _ _ _ Hsz) as ->.
  destruct (table_streams content_key key_size 16 Hsz) as [Hc Hd].
  rewrite Hc, Hd, content_cipher_state_cases by lia.
  destruct (key content_key) as [ks|]; [|split; now eexists].
  destruct (iv content_key) as [istr|]; [|split; now eexists].
  cbn [byte_length] in Hwrong.
  destruct (List.length (Buffer_from_hex istr) =? 16) eqn:Hil;
    [|split; now eexists].
  destruct (List.length (Buffer_from_hex ks) =? key_size) eqn:Hkl;
    [|split; now eexists].
  apply Nat.eqb_eq in Hil, Hkl.
  destruct Hwrong as [H | H]; exfalso; apply H; congruence.
Qed.

Lemma fresh_key_streams (kb ib : Buffer) :
  List.length kb = 32 -> List.length ib = 16 ->
  let content_key := {| algo := CONTENT_CIPHER_ALGORITHM;
                        key := Some (Buffer_toString_hex kb);
                        iv := Some (Buffer_toString_hex ib) |} in
  make_content_cipher_stream content_key
    = Ok (Cipheriv {| ckey := kb; chain := ib; pending := [] |})
  /\ make_content_decipher_stream content_key
     = Ok (Decipheriv {| ckey := kb; chain := ib; pending := [] |}).
Proof.
  intros Hk Hi content_key.
  destruct (table_streams content_key 32 16 eq_refl) as [Hc Hd].
  rewrite Hc, Hd, content_cipher_state_cases by lia.
  unfold content_key. cbn [key iv].
  rewrite !Buffer_from_hex_toString, Hk, Hi.
  now split.
Qed.

End ContentFacts.

Section ContentClaims.
Context {C : NodeCrypto}.

(** C3, on the code.  For the no-encryption key both constructors return a
    [PassThrough] stream, and [crypto_content_transform] then calls
    [update] on it: [encrypt_content] and [decrypt_content] throw a
    [TypeError] for every buffer instead of returning it. *)
Theorem noencrypt_content_throws :
  forall b : Buffer,
    make_content_cipher_stream make_content_key_noencrypt = Ok PassThrough
    /\ make_content_decipher_stream make_content_key_noencrypt = Ok PassThrough
    /\ encrypt_content b make_content_key_noencrypt
       = Throw (TypeError "transform.update is not a function")
    /\ decrypt_content b make_content_key_noencrypt
       = Throw (TypeError "transform.update is not a function").
Proof. intros b. repeat split. Qed.

(** C4. Round trip of content under a fresh key: with a generator that
    gives the bytes asked for and an invertible block function,
    [encrypt_content] under the key of [make_content_key] returns the output
    of the cipher run over the whole buffer and finalized: the chained
    encryption of its blocks under the key and IV bytes, closed by the
    encrypted padded tail, [16 * (n / 16 + 1)] bytes for [n] bytes of input.
    [decrypt_content] under the same key is the decipher run over the whole
    ciphertext and finalized, and gives the buffer back. *)
Theorem content_round_trip :
  randomBytes_contract ->
  block_cipher_contract ->
  forall (b : Buffer) (g : rng),
    exists kb ib c,
      key (fst (make_content_key g)) = Some (Buffer_toString_hex kb)
      /\ iv (fst (make_content_key g)) = Some (Buffer_toString_hex ib)
      /\ encrypt_content b (fst (make_content_key g)) = Ok c
      /\ c = encrypt_stream {| ckey := kb; chain := ib; pending := [] |} b
      /\ c = fst (cipher_feed {| ckey := kb; chain := ib; pending := [] |} b)
             ++ block_encrypt kb
                  (xor_block
                     (pkcs7_pad
                        (pending
                           (snd (cipher_feed
                                   {| ckey := kb; chain := ib; pending := [] |}
                                   b))))
                     (chain
                        (snd (cipher_feed
                                {| ckey := kb; chain := ib; pending := [] |}
                                b))))
      /\ List.length c = 16 * (List.length b / 16 + 1)
      /\ decrypt_content c (fst (make_content_key g))
         = decrypt_stream {| ckey := kb; chain := ib; pending := [] |} c
      /\ decrypt_content c (fst (make_content_key g)) = Ok b.
Proof.
  intros Hrand Hblock b g.
  destruct (make_content_key_shape Hrand g) as (kb & ib & g' & -> & Hk & Hi).
  cbn [fst key iv].
  destruct (fresh_key_streams kb ib Hk Hi) as [Henc Hdec].
  unfold encrypt_content, decrypt_content. rewrite Henc, Hdec. cbn [bind].
  rewrite crypto_content_transform_cipher.
  exists kb, ib, (encrypt_stream {| ckey := kb; chain := ib; pending := [] |} b).
  rewrite crypto_content_transform_decipher.
  repeat split.
  - apply encrypt_stream_final.
  - rewrite (encrypt_stream_length Hblock b kb ib []); try assumption.
    + reflexivity.
    + cbn. unfold block_size. lia.
  - rewrite (stream_round_trip Hblock b kb ib [] ib []); try assumption.
    + reflexivity.
    + cbn. unfold block_size. lia.
    + now left.
    + reflexivity.
Qed.


(** C9. The content keys the constructors make: [make_content_key_noencrypt]
    has the sentinel algorithm and neither key nor IV; [make_content_key]
    has the default algorithm, a key that is the hex text of 32 bytes and an
    IV that is the hex text of 16 bytes, and these texts decode to 32 and to
    16 bytes. *)
Theorem content_key_invariant :
  randomBytes_contract ->
  forall g : rng,
    (algo make_content_key_noencrypt = CONTENT_CIPHER_ALGORITHM_NOENCRYPT
     /\ key make_content_key_noencrypt = None
     /\ iv make_content_key_noencrypt = None)
    /\ algo (fst (make_content_key g)) = "aes-256-cbc"%string
    /\ cipher_sizes (algo (fst (make_content_key g))) = Some (32, 16)
    /\ (exists kb ib,
          key (fst (make_content_key g)) = Some (Buffer_toString_hex kb)
          /\ iv (fst (make_content_key g)) = Some (Buffer_toString_hex ib)
          /\ List.length kb = 32 /\ List.length ib = 16)
    /\ byte_length (key (fst (make_content_key g))) = Some 32
    /\ byte_length (iv (fst (make_content_key g))) = Some 16.
Proof.
  intros Hrand g.
  destruct (make_content_key_shape Hrand g) as (kb & ib & g' & -> & Hk & Hi).
  cbn [fst algo key iv byte_length].
  rewrite !Buffer_from_hex_toString, Hk, Hi.
  repeat split. now exists kb, ib.
Qed.

End ContentClaims.

(** *** The content cipher on the sample collaborators *)

Lemma content_round_trip_witness :
  randomBytes_contract (C := Sample.node_crypto)
  /\ block_cipher_contract (C := Sample.node_crypto)
  /\ exists c,
       encrypt_content (C := Sample.node_crypto) [x68; x69]
         (fst (make_content_key (C := Sample.node_crypto) 7)) = Ok c
       /\ List.length c = 16
       /\ decrypt_content (C := Sample.node_crypto) c
            (fst (make_content_key (C := Sample.node_crypto) 7))
          = Ok [x68; x69].
Proof.
  split; [exact sample_randomBytes|].
  split; [exact sample_block_cipher|].
  destruct (content_round_trip (C := Sample.node_crypto)
              sample_randomBytes sample_block_cipher [x68; x69] 7)
    as (kb & ib & c & _ & _ & Henc & _ & _ & Hlen & _ & Hdec).
  exists c. split; [exact Henc|]. split; [exact Hlen | exact Hdec].
Defined.



Lemma content_key_invariant_witness :
  randomBytes_contract (C := Sample.node_crypto)
  /\ byte_length (key (fst (make_content_key (C := Sample.node_crypto) 7)))
     = Some 32
  /\ byte_length (iv (fst (make_content_key (C := Sample.node_crypto) 7)))
     = Some 16.
Proof.
  split; [exact sample_randomBytes|].
  pose proof (content_key_invariant (C := Sample.node_crypto)
                sample_randomBytes 7) as (_ & _ & _ & _ & Hkey & Hiv).
  now split.
Defined.

(* ================================================================== *)
(** * Further properties of the envelope codec *)
(* ================================================================== *)

Lemma split_first_occurs (sep : ascii) (s : string) :
  occurs sep s = true -> exists a r, split_first sep s = Some (a, r).
Proof.
  induction s as [|c rest IH]; cbn; [discriminate|].
  destruct (Ascii.eqb c sep); cbn.
  - intros _. now exists EmptyString, rest.
  - intros H. destruct (IH H) as (a & r & ->). now exists (String c a), r.
Qed.

Lemma split_first_app_some (sep : ascii) (s a r t : string) :
  split_first sep s = Some (a, r) ->
  split_first sep (s ++ t)%string = Some (a, (r ++ t)%string).
Proof.
  revert a r. induction s as [|c rest IH]; intros a r; cbn; [discriminate|].
  destruct (Ascii.eqb c sep).
  - intros [= <- <-]. reflexivity.
  - destruct (split_first sep rest) as [[a' r']|]; [|discriminate].
    intros [= <- <-]. now rewrite (IH a' r' eq_refl).
Qed.

Lemma before_sep_app_sep (sep : ascii) (r t : string) :
  before_sep sep (r ++ String sep t)%string = before_sep sep r.
Proof.
  induction r as [|c rest IH]; cbn.
  - now rewrite Ascii.eqb_refl.
  - destruct (Ascii.eqb c sep); [reflexivity|]. now rewrite IH.
Qed.

Lemma well_formed_base64_toString (buf : Buffer) :
  well_formed_base64 (Buffer_toString_base64 buf) = true.
Proof.
  unfold well_formed_base64. rewrite Buffer_from_base64_toString.
  apply String.eqb_refl.
Qed.

Lemma Buffer_toString_base64_inj (a b : Buffer) :
  Buffer_toString_base64 a = Buffer_toString_base64 b -> a = b.
Proof.
  intros H. rewrite <- (Buffer_from_base64_toString a), H.
  apply Buffer_from_base64_toString.
Qed.

Section EnvelopeShape.
Context {E : Ecc} {J : Json}.

Lemma encrypt_object_inv (o : Obj) (priv : PrivateKey) (pub : PublicKey)
    (g g' : entropy) (env : string) :
  encrypt_object o priv pub g = Ok (env, g') ->
  exists s c,
    JSON_stringify o = Ok s
    /\ encrypt_with_checksum priv pub
         (Buffer_toString_base64 (fst (random32ByteBuffer g))) (utf8_encode s)
       = Ok c
    /\ env = (Buffer_toString_base64 (fst (random32ByteBuffer g))
              ++ String ":" (Buffer_toString_base64 c))%string
    /\ g' = snd (random32ByteBuffer g).
Proof.
  unfold encrypt_object.
  destruct (random32ByteBuffer g) as [noncebuf g1]. cbn [fst snd].
  destruct (JSON_stringify o) as [s|e]; cbn [bind]; [|discriminate].
  destruct (encrypt_with_checksum priv pub _ (utf8_encode s)) as [c|e] eqn:Hc;
    cbn [bind]; [|discriminate].
  intros [= <- <-]. now exists s, c.
Qed.

Lemma encrypt_buffer_inv (buf : Buffer) (priv : PrivateKey) (pub : PublicKey)
    (g g' : entropy) (env : Buffer) :
  encrypt_buffer buf priv pub g = Ok (env, g') ->
  exists c,
    encrypt_with_checksum priv pub
      (Buffer_toString_base64 (fst (random32ByteBuffer g))) buf = Ok c
    /\ env = u8 (List.length (fst (random32ByteBuffer g)))
               :: fst (random32ByteBuffer g) ++ c
    /\ g' = snd (random32ByteBuffer g).
Proof.
  unfold encrypt_buffer.
  destruct (random32ByteBuffer g) as [noncebuf g1]. cbn [fst snd].
  destruct (encrypt_with_checksum priv pub _ buf) as [c|e] eqn:Hc;
    cbn [bind]; [|discriminate].
  intros [= <- <-]. exists c. repeat split.
  unfold Buffer_concat. cbn. now rewrite app_nil_r.
Qed.

Lemma envelope_parts_framed (nonce c : Buffer) :
  List.length nonce < 256 ->
  envelope_nonce (u8 (List.length nonce) :: nonce ++ c) = nonce
  /\ envelope_ciphertext (u8 (List.length nonce) :: nonce ++ c) = c.
Proof.
  intros Hlen. unfold envelope_nonce, envelope_ciphertext. cbn [hd tl].
  rewrite to_nat_u8 by exact Hlen. split.
  - now rewrite firstn_app, Nat.sub_diag, firstn_all, firstn_O, app_nil_r.
  - now rewrite skipn_app, Nat.sub_diag, skipn_all.
Qed.

(** X1. Whatever follows a second ':' is ignored: appending ':' and any
    text to an envelope string that already holds a ':' does not change what
    [decrypt_object] returns. *)
Theorem trailing_segment_ignored :
  forall (str junk : string) (pub : PublicKey) (priv : PrivateKey),
    occurs ":" str = true ->
    decrypt_object (str ++ String ":" junk)%string pub priv
    = decrypt_object str pub priv.
Proof.
  intros str junk pub priv Hocc.
  destruct (split_first_occurs ":" str Hocc) as (a & r & Hsplit).
  rewrite !decrypt_object_unfold.
  rewrite (split_first_app_some ":" str a r _ Hsplit), Hsplit.
  now rewrite before_sep_app_sep.
Qed.

(** X2. An envelope that [encrypt_object] returns is in canonical form: it
    splits at its only ':' into the base64 text of the nonce drawn and the
    base64 text of the primitive's output for that nonce and the JSON text,
    both canonical, and the entropy has advanced by exactly that one draw. *)
Theorem object_envelope_well_formed :
  forall (o : Obj) (priv : PrivateKey) (pub : PublicKey) (g g' : entropy)
         (env : string),
    encrypt_object o priv pub g = Ok (env, g') ->
    text_envelope_parses env = true
    /\ g' = snd (random32ByteBuffer g)
    /\ exists s c,
         JSON_stringify o = Ok s
         /\ encrypt_with_checksum priv pub
              (Buffer_toString_base64 (fst (random32ByteBuffer g)))
              (utf8_encode s) = Ok c
         /\ String_split ":" 2 env
            = [Buffer_toString_base64 (fst (random32ByteBuffer g));
               Buffer_toString_base64 c]
         /\ split_on ":" env
            = [Buffer_toString_base64 (fst (random32ByteBuffer g));
               Buffer_toString_base64 c].
Proof.
  intros o priv pub g g' env Henc.
  destruct (encrypt_object_inv _ _ _ _ _ _ Henc) as (s & c & Hs & Hc & -> & ->).
  assert (Hsplit :
    split_first ":" (Buffer_toString_base64 (fst (random32ByteBuffer g))
                     ++ String ":" (Buffer_toString_base64 c))%string
    = Some (Buffer_toString_base64 (fst (random32ByteBuffer g)),
            Buffer_toString_base64 c))
    by (apply split_first_app, base64_no_colon).
  split; [|split; [reflexivity|]].
  - unfold text_envelope_parses. rewrite Hsplit.
    now rewrite !well_formed_base64_toString.
  - exists s, c. split; [exact Hs|]. split; [exact Hc|]. split.
    + rewrite String_split_two, Hsplit.
      now rewrite before_sep_no_sep by apply base64_no_colon.
    + rewrite split_on_first, Hsplit.
      rewrite split_on_first, split_first_none by apply base64_no_colon.
      reflexivity.
Qed.

(** X3. A buffer envelope that [encrypt_buffer] returns, for a nonce of at
    most 255 bytes, parses back to its parts: the length byte does not
    exceed the bytes that follow, the nonce read off it is the nonce drawn,
    the ciphertext read off it is the primitive's output, and the envelope
    is one byte longer than the two together. *)
Theorem buffer_envelope_well_formed :
  forall (buf : Buffer) (priv : PrivateKey) (pub : PublicKey) (g g' : entropy)
         (env : Buffer),
    List.length (fst (random32ByteBuffer g)) < 256 ->
    encrypt_buffer buf priv pub g = Ok (env, g') ->
    binary_envelope_parses env = true
    /\ envelope_nonce env = fst (random32ByteBuffer g)
    /\ encrypt_with_checksum priv pub
         (Buffer_toString_base64 (envelope_nonce env)) buf
       = Ok (envelope_ciphertext env)
    /\ List.length env
       = 1 + List.length (envelope_nonce env)
         + List.length (envelope_ciphertext env)
    /\ g' = snd (random32ByteBuffer g).
Proof.
  intros buf priv pub g g' env Hlen Henc.
  destruct (encrypt_buffer_inv _ _ _ _ _ _ Henc) as (c & Hc & -> & ->).
  destruct (envelope_parts_framed (fst (random32ByteBuffer g)) c Hlen)
    as [Hn Hct].
  rewrite Hn, Hct.
  split; [|split; [reflexivity|split; [exact Hc|split; [|reflexivity]]]].
  - cbn [binary_envelope_parses]. rewrite to_nat_u8 by exact Hlen.
    apply Nat.leb_le. rewrite length_app. lia.
  - cbn [List.length]. rewrite length_app. lia.
Qed.

(** X4. Fresh nonces give distinct envelopes: when two successive calls with
    the same arguments draw different nonces, the two envelopes differ, for
    [encrypt_object] and, with 32-byte nonces, for [encrypt_buffer]. *)
Theorem fresh_nonce_distinct_envelopes :
  forall (o : Obj) (buf : Buffer) (priv : PrivateKey) (pub : PublicKey)
         (g g1 : entropy),
    fst (random32ByteBuffer g) <> fst (random32ByteBuffer g1) ->
    (forall env1 env2 g2 g3,
       encrypt_object o priv pub g = Ok (env1, g2) ->
       encrypt_object o priv pub g1 = Ok (env2, g3) ->
       env1 <> env2)
    /\ (random32_contract ->
        forall env1 env2 g2 g3,
          encrypt_buffer buf priv pub g = Ok (env1, g2) ->
          encrypt_buffer buf priv pub g1 = Ok (env2, g3) ->
          env1 <> env2).
Proof.
  intros o buf priv pub g g1 Hfresh. split.
  - intros env1 env2 g2 g3 H1 H2 Heq.
    destruct (encrypt_object_inv _ _ _ _ _ _ H1) as (s1 & c1 & _ & _ & -> & _).
    destruct (encrypt_object_inv _ _ _ _ _ _ H2) as (s2 & c2 & _ & _ & -> & _).
    apply (f_equal (split_first ":")) in Heq.
    rewrite !split_first_app in Heq by apply base64_no_colon.
    injection Heq as Hn _.
    now apply Buffer_toString_base64_inj in Hn.
  - intros Hrand env1 env2 g2 g3 H1 H2 Heq.
    destruct (encrypt_buffer_inv _ _ _ _ _ _ H1) as (c1 & _ & -> & _).
    destruct (encrypt_buffer_inv _ _ _ _ _ _ H2) as (c2 & _ & -> & _).
    apply (f_equal envelope_nonce) in Heq.
    assert (Hlt : forall g0, List.length (fst (random32ByteBuffer g0)) < 256)
      by (intros g0; rewrite Hrand; lia).
    rewrite (proj1 (envelope_parts_framed _ c1 (Hlt g))) in Heq.
    rewrite (proj1 (envelope_parts_framed _ c2 (Hlt g1))) in Heq.
    contradiction.
Qed.

End EnvelopeShape.

(* ================================================================== *)
(** * Further properties of the content cipher *)
(* ================================================================== *)

Section ContentShape.
Context {J : Json} {C : NodeCrypto}.

Lemma well_sized_round_trip :
  block_cipher_contract ->
  forall (content_key : ContentKey) (b : Buffer),
    real_algorithm (algo content_key) 32 16 ->
    byte_length (key content_key) = Some 32 ->
    byte_length (iv content_key) = Some 16 ->
    exists c,
      encrypt_content b content_key = Ok c
      /\ List.length c = 16 * (List.length b / 16 + 1)
      /\ decrypt_content c content_key = Ok b.
Proof.
  intros Hblock content_key b Hreal Hkey Hiv.
  destruct (well_sized_streams content_key 32 16 Hreal Hkey Hiv)
    as (kb & ib & Hk & Hi & Henc & Hdec).
  unfold encrypt_content, decrypt_content. rewrite Henc, Hdec. cbn [bind].
  rewrite crypto_content_transform_cipher.
  eexists. split; [reflexivity|]. split.
  - rewrite (encrypt_stream_length Hblock b kb ib []); try assumption.
    + reflexivity.
    + cbn. unfold block_size. lia.
  - rewrite crypto_content_transform_decipher.
    rewrite (stream_round_trip Hblock b kb ib [] ib []); try assumption.
    + reflexivity.
    + cbn. unfold block_size. lia.
    + now left.
    + reflexivity.
Qed.

(** X5. For a real algorithm the transforms are made exactly for well-sized
    keys: [make_content_cipher_stream] and [make_content_decipher_stream]
    return a cipher object, and [encrypt_content] returns a ciphertext for
    every input, if and only if the key and the IV decode to the byte lengths
    of the algorithm. *)
Theorem well_sized_key_accepted :
  forall (content_key : ContentKey) (key_size iv_size : nat),
    real_algorithm (algo content_key) key_size iv_size ->
    ((exists st, make_content_cipher_stream content_key = Ok (Cipheriv st))
     <-> byte_length (key content_key) = Some key_size
         /\ byte_length (iv content_key) = Some iv_size)
    /\ ((exists st, make_content_decipher_stream content_key
                    = Ok (Decipheriv st))
        <-> byte_length (key content_key) = Some key_size
            /\ byte_length (iv content_key) = Some iv_size)
    /\ (forall input,
          (exists c, encrypt_content input content_key = Ok c)
          <-> byte_length (key content_key) = Some key_size
              /\ byte_length (iv content_key) = Some iv_size).
Proof.
  intros content_key key_size iv_size Hreal.
  destruct (well_sized_or_not content_key key_size iv_size)
    as [[Hkey Hiv] | Hwrong].
  - destruct (well_sized_streams content_key key_size iv_size Hreal Hkey Hiv)
      as (kb & ib & _ & _ & Henc & Hdec).
    split; [|split; [|intros input]]; (split; [now intros _|intros _]).
    + eexists. exact Henc.
    + eexists. exact Hdec.
    + unfold encrypt_content. rewrite Henc. cbn [bind].
      rewrite crypto_content_transform_cipher. eexists. reflexivity.
  - destruct (wrong_size_streams content_key key_size iv_size Hreal Hwrong)
      as [[e1 He1] [e2 He2]].
    split; [|split; [|intros input]]; split.
    + intros [st Hst]. congruence.
    + intros [Hk Hi]. destruct Hwrong; contradiction.
    + intros [st Hst]. congruence.
    + intros [Hk Hi]. destruct Hwrong; contradiction.
    + unfold encrypt_content. rewrite He1. cbn [bind].
      intros [c Hc]. discriminate.
    + intros [Hk Hi]. destruct Hwrong; contradiction.
Qed.

(** X6. Round trip of content under any well-sized AES-256-CBC key, not only
    a fresh one (hex digits of either case): with an invertible block
    function, [decrypt_content] gives back what [encrypt_content] took. *)
Theorem content_round_trip_any_key :
  block_cipher_contract ->
  forall (content_key : ContentKey) (b : Buffer),
    real_algorithm (algo content_key) 32 16 ->
    byte_length (key content_key) = Some 32 ->
    byte_length (iv content_key) = Some 16 ->
    exists c,
      encrypt_content b content_key = Ok c
      /\ decrypt_content c content_key = Ok b.
Proof.
  intros Hblock content_key b Hreal Hkey Hiv.
  destruct (well_sized_round_trip Hblock content_key b Hreal Hkey Hiv)
    as (c & Henc & _ & Hdec).
  now exists c.
Qed.

(** X7. Round trip of content strings: under a well-sized AES-256-CBC key
    and an invertible block function, [decrypt_content_str] gives back the
    text that [encrypt_content_str] took, for every text that survives the
    UTF-8 conversions; the text in between is canonical base64 without
    ':'. *)
Theorem content_str_round_trip :
  block_cipher_contract ->
  forall (content_key : ContentKey) (s : string),
    real_algorithm (algo content_key) 32 16 ->
    byte_length (key content_key) = Some 32 ->
    byte_length (iv content_key) = Some 16 ->
    utf8_decode (utf8_encode s) = s ->
    exists t,
      encrypt_content_str s content_key = Ok t
      /\ well_formed_base64 t = true
      /\ occurs ":" t = false
      /\ decrypt_content_str t content_key = Ok s.
Proof.
  intros Hblock content_key s Hreal Hkey Hiv Hutf.
  destruct (well_sized_round_trip Hblock content_key (utf8_encode s)
              Hreal Hkey Hiv) as (c & Henc & _ & Hdec).
  unfold encrypt_content_str, decrypt_content_str.
  rewrite Henc. cbn [bind].
  eexists. split; [reflexivity|].
  split; [apply well_formed_base64_toString|].
  split; [apply base64_no_colon|].
  rewrite Buffer_from_base64_toString, Hdec. cbn [bind].
  now rewrite Hutf.
Qed.

(** X8. Under a key whose algorithm is the no-encryption sentinel, whatever
    its key and IV fields hold, the four content functions throw a
    [TypeError] for every input: the transform made has no [update]. *)
Theorem noencrypt_key_always_throws :
  forall (content_key : ContentKey) (b : Buffer) (s : string),
    algo content_key = CONTENT_CIPHER_ALGORITHM_NOENCRYPT ->
    encrypt_content b content_key
      = Throw (TypeError "transform.update is not a function")
    /\ decrypt_content b content_key
       = Throw (TypeError "transform.update is not a function")
    /\ encrypt_content_str s content_key
       = Throw (TypeError "transform.update is not a function")
    /\ decrypt_content_str s content_key
       = Throw (TypeError "transform.update is not a function").
Proof.
  intros content_key b s Halgo.
  unfold encrypt_content_str, decrypt_content_str, encrypt_content,
    decrypt_content, make_content_cipher_stream, make_content_decipher_stream.
  rewrite Halgo, String.eqb_refl. now repeat split.
Qed.


(** X10. Under a well-sized key of aes-128-cbc, aes-192-cbc or aes-256-cbc,
    the decipher is made, and [decrypt_content] throws an [Error] (the
    decipher's failure on its final block) for every input that is not a
    positive whole number of 16-byte blocks, the empty buffer included,
    whatever the block function. *)
Theorem partial_blocks_rejected :
  forall (content_key : ContentKey) (key_size iv_size : nat) (c : Buffer),
    cipher_sizes (algo content_key) = Some (key_size, iv_size) ->
    byte_length (key content_key) = Some key_size ->
    byte_length (iv content_key) = Some iv_size ->
    c = [] \/ List.length c mod 16 <> 0 ->
    (exists st, make_content_decipher_stream content_key = Ok (Decipheriv st))
    /\ exists e,
         decrypt_content c content_key = Throw e
         /\ error_class e = "Error"%string.
Proof.
  intros content_key key_size iv_size c Hsz Hkey Hiv Hbad.
  assert (Hreal : real_algorithm (algo content_key) key_size iv_size).
  { split; [|exact Hsz].
    apply String.eqb_neq. exact (cipher_sizes_not_sentinel _ _ Hsz). }
  destruct (well_sized_streams content_key key_size iv_size Hreal Hkey Hiv)
    as (kb & ib & _ & _ & _ & Hdec).
  split; [eexists; exact Hdec|].
  unfold decrypt_content. rewrite Hdec. cbn [bind].
  rewrite crypto_content_transform_decipher.
  rewrite decrypt_stream_partial by exact Hbad.
  eexists. split; reflexivity.
Qed.

End ContentShape.

(** *** The further properties on the sample collaborators *)

Lemma sample_key_real :
  real_algorithm
    (algo {| algo := "aes-256-cbc"; key := Some "0707070707070707070707070707070707070707070707070707070707070707";
     iv := Some "08080808080808080808080808080808" |}%string)
    32 16.
Proof. split; [discriminate | reflexivity]. Qed.

Lemma trailing_segment_ignored_witness :
  decrypt_object (E := Sample.ecc) (J := Sample.json)
    "AAAA:E3RydWU=:extra" 3 5
  = decrypt_object (E := Sample.ecc) (J := Sample.json) "AAAA:E3RydWU=" 3 5.
Proof.
  exact (trailing_segment_ignored (E := Sample.ecc) (J := Sample.json)
           "AAAA:E3RydWU=" "extra" 3 5 eq_refl).
Defined.

Lemma object_envelope_well_formed_witness :
  encrypt_object (E := Sample.ecc) (J := Sample.json) true 3 5 0
  = Ok ("AAAAAAAAAAAAAAAAAAAAAAAAAAAAAAAAAAAAAAAAAAA=:O3RydWU="%string, 1)
  /\ text_envelope_parses
       "AAAAAAAAAAAAAAAAAAAAAAAAAAAAAAAAAAAAAAAAAAA=:O3RydWU=" = true.
Proof.
  split; [reflexivity|].
  exact (proj1 (object_envelope_well_formed (E := Sample.ecc)
                  (J := Sample.json) true 3 5 0 1
                  "AAAAAAAAAAAAAAAAAAAAAAAAAAAAAAAAAAAAAAAAAAA=:O3RydWU="
                  eq_refl)).
Defined.

Lemma buffer_envelope_well_formed_witness :
  binary_envelope_parses (x20 :: repeat x07 32 ++ [x3b; x01; x02]) = true
  /\ envelope_nonce (x20 :: repeat x07 32 ++ [x3b; x01; x02]) = repeat x07 32.
Proof.
  pose proof (buffer_envelope_well_formed (E := Sample.ecc)
                [x01; x02] 3 5 7 8 (x20 :: repeat x07 32 ++ [x3b; x01; x02]))
    as Hshape.
  destruct Hshape as (Hparse & Hnonce & _).
  - cbn. lia.
  - reflexivity.
  - split; [exact Hparse | exact Hnonce].
Defined.

Lemma fresh_nonce_distinct_envelopes_witness :
  exists env1 env2,
    encrypt_object (E := Sample.ecc) (J := Sample.json) true 3 5 0
      = Ok (env1, 1)
    /\ encrypt_object (E := Sample.ecc) (J := Sample.json) true 3 5 1
       = Ok (env2, 2)
    /\ env1 <> env2.
Proof.
  assert (Hfresh : fst (random32ByteBuffer (Ecc := Sample.ecc) 0)
                   <> fst (random32ByteBuffer (Ecc := Sample.ecc) 1))
    by (intros H; vm_compute in H; discriminate H).
  eexists. eexists. split; [reflexivity|]. split; [reflexivity|].
  exact (proj1 (fresh_nonce_distinct_envelopes (E := Sample.ecc)
                  (J := Sample.json) true [] 3 5 0 1 Hfresh)
           _ _ _ _ eq_refl eq_refl).
Defined.

Lemma well_sized_key_accepted_witness :
  exists c,
    encrypt_content (C := Sample.node_crypto) [x68; x69]
      {| algo := "aes-256-cbc"; key := Some "0707070707070707070707070707070707070707070707070707070707070707";
     iv := Some "08080808080808080808080808080808" |}%string
    = Ok c.
Proof.
  apply (proj2 (proj2 (well_sized_key_accepted (C := Sample.node_crypto)
                         {| algo := "aes-256-cbc"; key := Some "0707070707070707070707070707070707070707070707070707070707070707";
     iv := Some "08080808080808080808080808080808" |}%string
                         32 16 sample_key_real)) [x68; x69]).
  split; reflexivity.
Defined.

Lemma content_round_trip_any_key_witness :
  exists c,
    encrypt_content (C := Sample.node_crypto) [x68; x69]
      {| algo := "aes-256-cbc"; key := Some "0707070707070707070707070707070707070707070707070707070707070707";
     iv := Some "08080808080808080808080808080808" |}%string
    = Ok c
    /\ decrypt_content (C := Sample.node_crypto) c
         {| algo := "aes-256-cbc"; key := Some "0707070707070707070707070707070707070707070707070707070707070707";
     iv := Some "08080808080808080808080808080808" |}%string
       = Ok [x68; x69].
Proof.
  exact (content_round_trip_any_key (C := Sample.node_crypto)
           sample_block_cipher
           {| algo := "aes-256-cbc"; key := Some "0707070707070707070707070707070707070707070707070707070707070707";
     iv := Some "08080808080808080808080808080808" |}%string
           [x68; x69] sample_key_real eq_refl eq_refl).
Defined.

Lemma content_str_round_trip_witness :
  exists t,
    encrypt_content_str (J := Sample.json) (C := Sample.node_crypto) "hi"
      {| algo := "aes-256-cbc"; key := Some "0707070707070707070707070707070707070707070707070707070707070707";
     iv := Some "08080808080808080808080808080808" |}%string
    = Ok t
    /\ well_formed_base64 t = true
    /\ occurs ":" t = false
    /\ decrypt_content_str (J := Sample.json) (C := Sample.node_crypto) t
         {| algo := "aes-256-cbc"; key := Some "0707070707070707070707070707070707070707070707070707070707070707";
     iv := Some "08080808080808080808080808080808" |}%string
       = Ok "hi"%string.
Proof.
  exact (content_str_round_trip (J := Sample.json) (C := Sample.node_crypto)
           sample_block_cipher
           {| algo := "aes-256-cbc"; key := Some "0707070707070707070707070707070707070707070707070707070707070707";
     iv := Some "08080808080808080808080808080808" |}%string
           "hi" sample_key_real eq_refl eq_refl eq_refl).
Defined.

Lemma noencrypt_key_always_throws_witness :
  encrypt_content_str (J := Sample.json) (C := Sample.node_crypto) "hi"
    {| algo := "noencrypt"; key := Some "00ff"; iv := None |}%string
  = Throw (TypeError "transform.update is not a function").
Proof.
  exact (proj1 (proj2 (proj2
           (noencrypt_key_always_throws (J := Sample.json)
              (C := Sample.node_crypto)
              {| algo := "noencrypt"; key := Some "00ff"; iv := None |}%string
              [] "hi" eq_refl)))).
Defined.


Lemma partial_blocks_rejected_witness :
  exists e,
    decrypt_content (C := Sample.node_crypto) [x01; x02; x03]
      {| algo := "aes-256-cbc"; key := Some "0707070707070707070707070707070707070707070707070707070707070707";
     iv := Some "08080808080808080808080808080808" |}%string
    = Throw e
    /\ error_class e = "Error"%string.
Proof.
  apply (partial_blocks_rejected (C := Sample.node_crypto)
           {| algo := "aes-256-cbc"; key := Some "0707070707070707070707070707070707070707070707070707070707070707";
     iv := Some "08080808080808080808080808080808" |}%string
           32 16 [x01; x02; x03] eq_refl eq_refl eq_refl).
  right. cbn. discriminate.
Defined.
